(** * PyLoxone audio-server handshake: [pyloxone_api/audioserver.py]

    A shallow embedding of the three functions of the module,
    [normalize_public_key], [get_auth_payload] and
    [authenticate_with_audio_server], with the properties their
    specification states about them.

    Python values are modelled as the code has them:
    - [str] is a sequence of Unicode code points ([list N]);
    - [bytes] is a sequence of octets ([list byte]);
    - a decoded JSON document is the tree [json], with [dict] as a finite
      map from [str] keys;
    - the calls into PyCryptodome, the [json] decoder and the websocket are
      effects: the cipher primitives and the decoder are parameters of the
      development, every call is recorded in the [trace] of the [world]. *)

From Stdlib Require Import NArith ZArith List String Ascii Lia.
From Stdlib Require Init.Byte.
From stdpp Require Import base option list countable gmap.

Set Warnings "-register-all".
Open Scope N_scope.
Open Scope list_scope.

(** ** Python [str] and [bytes] *)

Module PyStr.

Abbreviation str := (list N) (only parsing).
Abbreviation bytes := (list Init.Byte.byte) (only parsing).

(** A source literal (all literals of the module are ASCII). *)
Definition lit (s : string) : str :=
  map N_of_ascii (list_ascii_of_string s).

Definition chr_eqb (a b : N) : bool := N.eqb a b.

(** [s.startswith(p)] *)
Fixpoint startswith (s p : str) : bool :=
  match p, s with
  | [], _ => true
  | _ :: _, [] => false
  | a :: p', b :: s' => chr_eqb a b && startswith s' p'
  end.

(** [p in s] *)
Fixpoint contains (s p : str) : bool :=
  startswith s p ||
  match s with
  | [] => false
  | _ :: s' => contains s' p
  end.

(** [s.replace(old, new)]: leftmost non-overlapping occurrences.  [skip]
    counts the characters of a matched occurrence still to be passed. *)
Fixpoint replace_from (old new s : str) (skip : nat) : str :=
  match s with
  | [] => []
  | c :: s' =>
      match skip with
      | S k => replace_from old new s' k
      | O =>
          if startswith s old
          then new ++ replace_from old new s' (Nat.pred (List.length old))
          else c :: replace_from old new s' O
      end
  end.

Definition replace (s old new : str) : str :=
  match old with
  | [] => new ++ concat (map (fun c => c :: new) s)
  | _ :: _ => replace_from old new s O
  end.

(** [s.split(sep)] for a non-empty separator; [cur] is the field being
    read, in reverse. *)
Fixpoint split_from (sep s : str) (skip : nat) (cur : str) : list str :=
  match s with
  | [] => [rev cur]
  | c :: s' =>
      match skip with
      | S k => split_from sep s' k cur
      | O =>
          if startswith s sep
          then rev cur :: split_from sep s' (Nat.pred (List.length sep)) []
          else split_from sep s' O (c :: cur)
      end
  end.

Definition split (s sep : str) : list str := split_from sep s O [].

(** [Py_UNICODE_ISSPACE]: the characters [str.strip()] removes. *)
Definition isspace (c : N) : bool :=
  ((0x09 <=? c) && (c <=? 0x0D)) ||
  ((0x1C <=? c) && (c <=? 0x20)) ||
  (c =? 0x85) || (c =? 0xA0) || (c =? 0x1680) ||
  ((0x2000 <=? c) && (c <=? 0x200A)) ||
  (c =? 0x2028) || (c =? 0x2029) || (c =? 0x202F) ||
  (c =? 0x205F) || (c =? 0x3000).

Fixpoint lstrip (s : str) : str :=
  match s with
  | [] => []
  | c :: s' => if isspace c then lstrip s' else s
  end.

Definition rstrip (s : str) : str := rev (lstrip (rev s)).

(** [s.strip()] *)
Definition strip (s : str) : str := rstrip (lstrip s).

End PyStr.
Import PyStr.

(** ** [normalize_public_key] *)

Definition header : str := lit "-----BEGIN PUBLIC KEY-----".
Definition footer : str := lit "-----END PUBLIC KEY-----".
Definition newline : str := lit (String (ascii_of_nat 10) EmptyString).

Definition dash : N := 45.

Definition normalize_public_key (public_key : str) : str :=
  strip (replace (replace public_key header (header ++ newline))
                 footer (newline ++ footer)).

(** ** Encodings: [bytes.hex], UTF-8, ASCII, base64, PKCS#7, [quote] *)

Inductive exn : Type :=
| Exception (msg : str)        (* [raise Exception(error_message)] *)
| TypeError
| AttributeError
| KeyError
| IndexError
| ValueError
| UnicodeEncodeError
| UnicodeDecodeError
| JSONDecodeError
| RecursionError
| ConnectionClosed             (* raised by [connection.send] *)
| ConnectionClosedError        (* raised by [async for ... in connection] *)
| OtherError (class_name : str).   (* any other class a library raises *)

Inductive result (A : Type) : Type :=
| Ok (a : A)
| Err (e : exn).
Arguments Ok {A} a.
Arguments Err {A} e.

Module Codec.

Definition octet (n : N) : Init.Byte.byte :=
  match Byte.of_N (n mod 256) with
  | Some b => b
  | None => Byte.x00
  end.

Definition hexdigit (d : N) : N := if d <? 10 then 48 + d else 87 + d.
Definition hexdigit_upper (d : N) : N := if d <? 10 then 48 + d else 55 + d.

(** [b.hex()] *)
Definition hex_byte (b : Init.Byte.byte) : str :=
  let n := Byte.to_N b in [hexdigit (n / 16); hexdigit (n mod 16)].

Definition bytes_hex (b : bytes) : str := flat_map hex_byte b.

(** One code point in UTF-8; surrogates are not encodable. *)
Definition encode_char (c : N) : option bytes :=
  if c <? 0x80 then Some [octet c]
  else if c <? 0x800 then
    Some [octet (0xC0 + c / 64); octet (0x80 + c mod 64)]
  else if (0xD800 <=? c) && (c <=? 0xDFFF) then None
  else if c <? 0x10000 then
    Some [octet (0xE0 + c / 4096); octet (0x80 + (c / 64) mod 64);
          octet (0x80 + c mod 64)]
  else if c <? 0x110000 then
    Some [octet (0xF0 + c / 262144); octet (0x80 + (c / 4096) mod 64);
          octet (0x80 + (c / 64) mod 64); octet (0x80 + c mod 64)]
  else None.

(** [s.encode("utf-8")] *)
Fixpoint encode_utf8 (s : str) : result bytes :=
  match s with
  | [] => Ok []
  | c :: s' =>
      match encode_char c, encode_utf8 s' with
      | Some a, Ok b => Ok (a ++ b)
      | _, _ => Err UnicodeEncodeError
      end
  end.

(** [b.decode("ascii")] *)
Definition decode_ascii (b : bytes) : result str :=
  if forallb (fun x => Byte.to_N x <? 128) b
  then Ok (map Byte.to_N b)
  else Err UnicodeDecodeError.

Definition b64char (n : N) : Init.Byte.byte :=
  octet (if n <? 26 then 65 + n
         else if n <? 52 then 71 + n
         else if n <? 62 then n - 4
         else if n =? 62 then 43
         else 47).

Definition b64pad : Init.Byte.byte := octet 61.

(** [base64.b64encode(b)] *)
Fixpoint b64encode (b : bytes) : bytes :=
  match b with
  | [] => []
  | [x] =>
      let n := Byte.to_N x in
      [b64char (n / 4); b64char ((n mod 4) * 16); b64pad; b64pad]
  | [x; y] =>
      let n := Byte.to_N x in
      let m := Byte.to_N y in
      [b64char (n / 4); b64char ((n mod 4) * 16 + m / 16);
       b64char ((m mod 16) * 4); b64pad]
  | x :: y :: z :: rest =>
      let n := Byte.to_N x in
      let m := Byte.to_N y in
      let k := Byte.to_N z in
      b64char (n / 4) :: b64char ((n mod 4) * 16 + m / 16)
      :: b64char ((m mod 16) * 4 + k / 64) :: b64char (k mod 64)
      :: b64encode rest
  end.

(** [Padding.pad(data, block_size)] (PKCS#7) *)
Definition pad (data : bytes) (block_size : nat) : bytes :=
  let padding_len := (block_size - List.length data mod block_size)%nat in
  data ++ repeat (octet (N.of_nat padding_len)) padding_len.

(** The characters [urllib.parse.quote] never escapes. *)
Definition always_safe (b : N) : bool :=
  ((65 <=? b) && (b <=? 90)) || ((97 <=? b) && (b <=? 122)) ||
  ((48 <=? b) && (b <=? 57)) ||
  (b =? 95) || (b =? 46) || (b =? 45) || (b =? 126).

Definition quote_byte (b : Init.Byte.byte) : str :=
  let n := Byte.to_N b in
  if always_safe n then [n]
  else [37; hexdigit_upper (n / 16); hexdigit_upper (n mod 16)].

(** [quote(s, safe='')] *)
Definition quote (s : str) : result str :=
  match s with
  | [] => Ok []
  | _ :: _ =>
      match encode_utf8 s with
      | Ok bs => Ok (flat_map quote_byte bs)
      | Err e => Err e
      end
  end.

(** The digits of [bytes.hex()]. *)
Definition is_lower_hex (c : N) : bool :=
  ((48 <=? c) && (c <=? 57)) || ((97 <=? c) && (c <=? 102)).

End Codec.
Import Codec.

(** ** Decoded JSON documents *)

Inductive json : Type :=
| JNull
| JBool (b : bool)
| JInt (z : Z)
| JFloat (bits : N)            (* the IEEE-754 binary64 pattern *)
| JStr (s : str)
| JList (l : list json)
| JDict (d : gmap (list N) json).

(** Python truth value. *)
Definition truthy (v : json) : bool :=
  match v with
  | JNull => false
  | JBool b => b
  | JInt z => negb (Z.eqb z 0)
  | JFloat bits => negb (bits mod 2 ^ 63 =? 0)
  | JStr s => negb (Nat.eqb (List.length s) 0)
  | JList l => negb (Nat.eqb (List.length l) 0)
  | JDict d => negb (Nat.eqb (size d) 0)
  end.

(** [d.get(key)] *)
Definition dict_get (d : gmap (list N) json) (key : str) : json :=
  match d !! key with
  | Some v => v
  | None => JNull
  end.

(** [v[0]] *)
Definition subscript0 (v : json) : result json :=
  match v with
  | JList (x :: _) => Ok x
  | JList [] => Err IndexError
  | JStr (c :: _) => Ok (JStr [c])
  | JStr [] => Err IndexError
  | JDict _ => Err KeyError
  | JNull | JBool _ | JInt _ | JFloat _ => Err TypeError
  end.

(** [v.get(key)] *)
Definition method_get (v : json) (key : str) : result json :=
  match v with
  | JDict d => Ok (dict_get d key)
  | _ => Err AttributeError
  end.

(** [v == "<literal>"] *)
Definition eq_str (v : json) (s : str) : bool :=
  match v with
  | JStr t => bool_decide (t = s)
  | _ => false
  end.

(** ** The world outside the module

    Every call that leaves the module is an [event] of the [trace]:
    the draws of [get_random_bytes], the PyCryptodome calls and
    [connection.send].  [EvEncryptor] marks an entry into
    [get_auth_payload]. *)

Inductive event : Type :=
| EvEncryptor (public_key : json) (session_token token active_user : str)
| EvRandom (out : bytes)
| EvRsaImportKey (pem : str)
| EvRsaEncrypt (plaintext : bytes)
| EvAesNew (key iv : bytes)
| EvAesEncrypt (data : bytes)
| EvSend (cmd : str).

Record world : Type := World {
  entropy : nat -> Init.Byte.byte;   (* the bytes the OS generator yields next *)
  trace : list event                 (* calls made so far, oldest first *)
}.

(** The libraries the module calls, as an interface.  A call that raises
    is a result [None]; which exception it raises is the library's affair
    ([ValueError] on most keys [RSA.import_key] refuses but [IndexError]
    on some, [JSONDecodeError] on most texts [json.loads] refuses but
    [RecursionError] on deeply nested ones), so each such call comes with
    the exception it raises on an input it refuses. *)
Record libraries : Type := Libraries {
  rsa_key : Type;
  (** [RSA.import_key(pem)]; [None]: the call raises *)
  RSA_import_key : str -> option rsa_key;
  (** the exception [RSA.import_key(pem)] raises on a text it refuses *)
  RSA_import_error : str -> exn;
  (** [PKCS1_v1_5.new(key).encrypt(m)] reading its padding from the
      generator: the ciphertext ([None]: the call raises, as on a
      plaintext too long for the modulus) and the number of random bytes
      it used *)
  PKCS1_v1_5_encrypt :
    rsa_key -> bytes -> (nat -> Init.Byte.byte) -> option bytes * nat;
  (** the exception that call raises on a plaintext it refuses *)
  PKCS1_v1_5_error : rsa_key -> bytes -> exn;
  (** the CBC encryption of [AES.new(key, MODE_CBC, iv).encrypt(data)] *)
  AES_CBC_encrypt : bytes -> bytes -> bytes -> bytes;
  (** [json.loads(s)]; [None]: the call raises *)
  json_loads : str -> option json;
  (** the exception [json.loads(s)] raises on a text it refuses *)
  json_loads_error : str -> exn;
  (** [str(v)] for a value that is not a [str] *)
  py_str : json -> str
}.

Definition M (A : Type) : Type := world -> result A * world.

Definition ret {A} (a : A) : M A := fun w => (Ok a, w).
Definition raise {A} (e : exn) : M A := fun w => (Err e, w).
Definition bind {A B} (m : M A) (k : A -> M B) : M B :=
  fun w =>
    match m w with
    | (Ok a, w') => k a w'
    | (Err e, w') => (Err e, w')
    end.
Definition lift {A} (r : result A) : M A := fun w => (r, w).
Definition emit (e : event) : M unit :=
  fun w => (Ok tt, World (entropy w) (trace w ++ [e])).

Declare Scope py_scope.
Delimit Scope py_scope with py.
Notation "x <- m ;; k" := (bind m (fun x => k))
  (at level 100, m at next level, right associativity) : py_scope.
Notation "m ;;; k" := (bind m (fun _ => k))
  (at level 100, right associativity) : py_scope.
Open Scope py_scope.

(** [Crypto.Random.get_random_bytes(n)] *)
Definition get_random_bytes (n : nat) : M bytes :=
  fun w =>
    let out := map (entropy w) (seq 0 n) in
    (Ok out, World (fun i => entropy w (n + i)%nat) (trace w ++ [EvRandom out])).

Section Encryptor.

Variable lib : libraries.

Definition import_key (pem : str) : M (rsa_key lib) :=
  emit (EvRsaImportKey pem) ;;;
  match RSA_import_key lib pem with
  | Some k => ret k
  | None => raise (RSA_import_error lib pem)
  end.

Definition rsa_encrypt (k : rsa_key lib) (plaintext : bytes) : M bytes :=
  emit (EvRsaEncrypt plaintext) ;;;
  fun w =>
    let (c, used) := PKCS1_v1_5_encrypt lib k plaintext (entropy w) in
    let w' := World (fun i => entropy w (used + i)%nat) (trace w) in
    match c with
    | Some c => (Ok c, w')
    | None => (Err (PKCS1_v1_5_error lib k plaintext), w')
    end.

(** [AES.new(key, AES.MODE_CBC, iv)] checks the sizes of both. *)
Definition AES_new (key iv : bytes) : M (bytes * bytes) :=
  emit (EvAesNew key iv) ;;;
  if negb (existsb (Nat.eqb (List.length key)) [16; 24; 32]%nat)
  then raise ValueError
  else if negb (Nat.eqb (List.length iv) 16) then raise ValueError
  else ret (key, iv).

(** [cipher.encrypt(data)] in CBC mode wants whole blocks. *)
Definition AES_encrypt (cipher : bytes * bytes) (data : bytes) : M bytes :=
  emit (EvAesEncrypt data) ;;;
  if negb (Nat.eqb (List.length data mod 16) 0) then raise ValueError
  else ret (AES_CBC_encrypt lib (fst cipher) (snd cipher) data).

Definition colon : str := lit ":".
Definition slash : str := lit "/".
Definition authenticate_prefix : str := lit "secure/authenticate/".

Definition get_auth_payload
    (public_key : json) (session_token token active_user : str) : M str :=
  emit (EvEncryptor public_key session_token token active_user) ;;;
  pem_public_key <-
    match public_key with
    | JStr k => ret (normalize_public_key k)
    | _ => raise AttributeError        (* no [replace] on that value *)
    end ;;
  seed <- get_random_bytes 16 ;;
  aes_key_bytes <- lift (encode_utf8 (bytes_hex seed)) ;;
  iv <- get_random_bytes 16 ;;
  rsa_payload <-
    lift (encode_utf8 (bytes_hex aes_key_bytes ++ colon ++ bytes_hex iv
                       ++ colon ++ session_token)) ;;
  rsa_key <- import_key pem_public_key ;;
  rsa_out <- rsa_encrypt rsa_key rsa_payload ;;
  rsa_encrypted <- lift (decode_ascii (b64encode rsa_out)) ;;
  cipher <- AES_new aes_key_bytes iv ;;
  token_bytes <- lift (encode_utf8 token) ;;
  let padded := pad token_bytes 16 in
  aes_out <- AES_encrypt cipher padded ;;
  ciphertext_b64 <- lift (decode_ascii (b64encode aes_out)) ;;
  q_user <- lift (quote active_user) ;;
  q_rsa <- lift (quote rsa_encrypted) ;;
  q_aes <- lift (quote ciphertext_b64) ;;
  ret (authenticate_prefix ++ q_user ++ slash ++ q_rsa ++ slash ++ q_aes).

End Encryptor.

(** ** The websocket

    What the peer does during one attempt: the frames it delivers, in
    order, how the stream of frames ends, and which calls of
    [connection.send] find the transport already closed. *)

Inductive message : Type :=
| Text (s : str)               (* a text frame, received as [str] *)
| Binary (b : bytes).          (* a binary frame, received as [bytes] *)

Inductive ending : Type :=
| ClosedOK                     (* closed normally: the iteration stops *)
| ClosedWithError              (* the iteration raises *)
| StaysOpen.                   (* no further frame ever arrives *)

Record connection : Type := Connection {
  inbound : list message;
  closing : ending;
  send_fails : nat -> bool     (* by the number of earlier [send] calls *)
}.

Definition is_send (e : event) : bool :=
  match e with
  | EvSend _ => true
  | _ => false
  end.

Definition is_encryptor (e : event) : bool :=
  match e with
  | EvEncryptor _ _ _ _ => true
  | _ => false
  end.

(** The commands handed to [connection.send], oldest first. *)
Fixpoint sent (t : list event) : list str :=
  match t with
  | [] => []
  | EvSend cmd :: t' => cmd :: sent t'
  | _ :: t' => sent t'
  end.

(** How often [get_auth_payload] was entered. *)
Definition encryptor_calls (t : list event) : nat :=
  List.length (List.filter is_encryptor t).

(** [await connection.send(cmd)] *)
Definition send (conn : connection) (cmd : str) : M unit :=
  fun w =>
    let w' := World (entropy w) (trace w ++ [EvSend cmd]) in
    if send_fails conn (List.length (sent (trace w)))
    then (Err ConnectionClosed, w')
    else (Ok tt, w').

(** ** [authenticate_with_audio_server] *)

Definition getkey_command : str := lit "audio/cfg/getkey/full".
Definition hello_prefix : str := lit "LWSS".
Definition token_marker : str := lit "Session-Token:".
Definition getkey_result : str := lit "getkey_result".
Definition pubkey : str := lit "pubkey".
Definition authenticate_result : str := lit "authenticate_result".
Definition authentication_successful : str := lit "authentication successful".
Definition unknown_error : str := lit "unknown error".
Definition no_session_token : str :=
  lit "No session token captured; cannot authenticate.".
Definition audio_server_error : str := lit "Audio server error: ".

(** [async def getkey(connection)] *)
Definition getkey (conn : connection) : M unit := send conn getkey_command.

(** The two variables of the function that live across iterations. *)
Record locals : Type := Locals {
  session_token : option str;
  auth_result : option json
}.

(** How one iteration of the loop ends. *)
Inductive control : Type :=
| Continue (l : locals)        (* on to the next message *)
| ReturnTrue.

Inductive outcome : Type :=
| ReturnedTrue                 (* [return True] *)
| ReturnedNone                 (* the function body ran to its end *)
| Raised (e : exn)
| Pending.                     (* suspended in [async for] for ever *)

(** [not session_token] *)
Definition token_missing (t : option str) : bool :=
  match t with
  | None | Some [] => true
  | Some (_ :: _) => false
  end.

Section Handshake.

Variable lib : libraries.
Variable conn : connection.
Variables token active_user : str.

(** [f"{v}"] *)
Definition format_value (v : json) : str :=
  match v with
  | JStr s => s
  | _ => py_str lib v
  end.

(** [auth_result or 'unknown error'] *)
Definition or_unknown_error (r : option json) : json :=
  match r with
  | Some v => if truthy v then v else JStr unknown_error
  | None => JStr unknown_error
  end.

(** The greeting branch, lines 66-72. *)
Definition on_hello (l : locals) (m : str) : M control :=
  l1 <-
    (if contains m token_marker then
       match split m token_marker !! 1%nat with
       | Some field => ret (Locals (Some (strip field)) (auth_result l))
       | None => raise IndexError
       end
     else ret l) ;;
  getkey conn ;;;
  ret (Continue l1).

(** The key-disclosure branch, lines 77-90. *)
Definition on_getkey_result (l : locals) (d : gmap (list N) json) : M control :=
  match session_token l with
  | None | Some [] => raise (Exception no_session_token)
  | Some (c :: t) =>
      first <- lift (subscript0 (dict_get d getkey_result)) ;;
      key <- lift (method_get first pubkey) ;;
      payload <- get_auth_payload lib key (c :: t) token active_user ;;
      send conn payload ;;;
      ret (Continue l)
  end.

(** Lines 91-101: the result branch and the common error exit. *)
Definition on_other_dict (l : locals) (d : gmap (list N) json) : M control :=
  let reply := dict_get d authenticate_result in
  let fall_through (l' : locals) : M control :=
    raise (Exception (audio_server_error
                      ++ format_value (or_unknown_error (auth_result l')))) in
  if truthy reply then
    let l' := Locals (session_token l) (Some reply) in
    if eq_str reply authentication_successful then ret ReturnTrue
    else fall_through l'
  else fall_through l.

(** The body of [async for message in connection]. *)
Definition loop_body (l : locals) (msg : message) : M control :=
  match msg with
  | Binary _ => raise TypeError      (* [bytes.startswith(str)] *)
  | Text m =>
      if startswith m hello_prefix then on_hello l m
      else
        match json_loads lib m with
        | None => raise (json_loads_error lib m)
        | Some (JDict d) =>
            if truthy (dict_get d getkey_result)
            then on_getkey_result l d
            else on_other_dict l d
        | Some _ => ret (Continue l)
        end
  end.

Fixpoint message_loop (msgs : list message) (l : locals) (w : world)
    : outcome * world :=
  match msgs with
  | [] =>
      match closing conn with
      | ClosedOK => (ReturnedNone, w)
      | ClosedWithError => (Raised ConnectionClosedError, w)
      | StaysOpen => (Pending, w)
      end
  | msg :: rest =>
      match loop_body l msg w with
      | (Ok (Continue l'), w') => message_loop rest l' w'
      | (Ok ReturnTrue, w') => (ReturnedTrue, w')
      | (Err e, w') => (Raised e, w')
      end
  end.

Definition authenticate_with_audio_server (w : world) : outcome * world :=
  message_loop (inbound conn) (Locals None None) w.

(** The locals and the world after [msgs], when none of them ends the
    attempt. *)
Fixpoint run_prefix (msgs : list message) (l : locals) (w : world)
    : option (locals * world) :=
  match msgs with
  | [] => Some (l, w)
  | msg :: rest =>
      match loop_body l msg w with
      | (Ok (Continue l'), w') => run_prefix rest l' w'
      | _ => None
      end
  end.

End Handshake.

(** ** A sample environment

    Stand-ins for the libraries, used to run the model on concrete
    exchanges.  The key of the exchanges is a 2048-bit RSA public key in
    the one-line form the server sends it in; the key stand-in accepts
    this key, once normalized, and refuses every other text; the RSA
    stand-in refuses a plaintext of more than 256 - 11 bytes, as
    PKCS#1 v1.5 does for this modulus; both ciphers return their input;
    the decoder knows the documents of the exchanges below. *)

Module Sample.

Definition dict (kvs : list (string * json)) : json :=
  JDict (list_to_map (map (fun kv => (lit (fst kv), snd kv)) kvs)).

(** A JSON text, written with ' for the double quote. *)
Definition text (s : string) : str :=
  map (fun c => if c =? 39 then 34 else c) (lit s).

Definition key_line : string :=
  "-----BEGIN PUBLIC KEY-----MIIBIjANBgkqhkiG9w0BAQEFAAOCAQ8AMIIBCgKCAQEAliQkLUUvIyJRbWdkoq8PO3J3/0lTaG2RctPk9XYtfi2ZViet75HKnPO224j+i3cCHoLC+WBIl6fxli1ZUCLUOud7lhCRulltglGuh5pQhVB/82zNb291JAcFeh1CjgL3Ifc38lT/kwiDU2Eeperc1nzOv8iVPz7iCdtBtlUMQgx+OUzAdlGtkbutiuoP+fe/u84roOHZAriHUX3wx8bKUZ81LLHCkDetQRwYRMdQ17KSo1mDjiPTtlPnd+fu+nRXDA0kKR0ig3TxftuvUw0KAgmF9R+8W7/Dq8BnlO2BUVX8o6cgT3mR+4z8NzEjRXsS8s7inbaHPXxIRphtrq/L9QIDAQAB-----END PUBLIC KEY-----".

Definition key_reply : string :=
  "{'getkey_result': [{'pubkey': '-----BEGIN PUBLIC KEY-----MIIBIjANBgkqhkiG9w0BAQEFAAOCAQ8AMIIBCgKCAQEAliQkLUUvIyJRbWdkoq8PO3J3/0lTaG2RctPk9XYtfi2ZViet75HKnPO224j+i3cCHoLC+WBIl6fxli1ZUCLUOud7lhCRulltglGuh5pQhVB/82zNb291JAcFeh1CjgL3Ifc38lT/kwiDU2Eeperc1nzOv8iVPz7iCdtBtlUMQgx+OUzAdlGtkbutiuoP+fe/u84roOHZAriHUX3wx8bKUZ81LLHCkDetQRwYRMdQ17KSo1mDjiPTtlPnd+fu+nRXDA0kKR0ig3TxftuvUw0KAgmF9R+8W7/Dq8BnlO2BUVX8o6cgT3mR+4z8NzEjRXsS8s7inbaHPXxIRphtrq/L9QIDAQAB-----END PUBLIC KEY-----'}]}".
Definition success_reply : string :=
  "{'authenticate_result': 'authentication successful'}".
Definition rejected_reply : string :=
  "{'authenticate_result': 'invalid credentials'}".
Definition empty_reply : string := "{'authenticate_result': ''}".
Definition both_reply : string :=
  "{'getkey_result': [{'pubkey': '-----BEGIN PUBLIC KEY-----MIIBIjANBgkqhkiG9w0BAQEFAAOCAQ8AMIIBCgKCAQEAliQkLUUvIyJRbWdkoq8PO3J3/0lTaG2RctPk9XYtfi2ZViet75HKnPO224j+i3cCHoLC+WBIl6fxli1ZUCLUOud7lhCRulltglGuh5pQhVB/82zNb291JAcFeh1CjgL3Ifc38lT/kwiDU2Eeperc1nzOv8iVPz7iCdtBtlUMQgx+OUzAdlGtkbutiuoP+fe/u84roOHZAriHUX3wx8bKUZ81LLHCkDetQRwYRMdQ17KSo1mDjiPTtlPnd+fu+nRXDA0kKR0ig3TxftuvUw0KAgmF9R+8W7/Dq8BnlO2BUVX8o6cgT3mR+4z8NzEjRXsS8s7inbaHPXxIRphtrq/L9QIDAQAB-----END PUBLIC KEY-----'}], 'authenticate_result': 'authentication successful'}".

Definition documents : list (string * json) :=
  [ (key_reply,
     dict [("getkey_result", JList [dict [("pubkey", JStr (lit key_line))]])]);
    (success_reply,
     dict [("authenticate_result", JStr (lit "authentication successful"))]);
    (rejected_reply,
     dict [("authenticate_result", JStr (lit "invalid credentials"))]);
    (empty_reply, dict [("authenticate_result", JStr [])]);
    (both_reply,
     dict [("getkey_result", JList [dict [("pubkey", JStr (lit key_line))]]);
           ("authenticate_result", JStr (lit "authentication successful"))]);
    ("{}", dict []);
    ("[1, 2]", JList [JInt 1; JInt 2]);
    ("7", JInt 7) ]%string.

Fixpoint lookup_document (docs : list (string * json)) (s : str)
    : option json :=
  match docs with
  | [] => None
  | (t, v) :: docs' =>
      if bool_decide (text t = s) then Some v else lookup_document docs' s
  end.

(** The modulus of the key has 256 bytes. *)
Definition modulus_bytes : nat := 256.

Definition libs : libraries := {|
  rsa_key := nat;
  RSA_import_key := fun pem =>
    if bool_decide (pem = normalize_public_key (lit key_line))
    then Some modulus_bytes else None;
  RSA_import_error := fun _ => ValueError;
  PKCS1_v1_5_encrypt := fun k m _ =>
    (if Nat.leb (List.length m + 11) k then Some m else None, 0%nat);
  PKCS1_v1_5_error := fun _ _ => ValueError;
  AES_CBC_encrypt := fun _ _ data => data;
  json_loads := lookup_document documents;
  json_loads_error := fun _ => JSONDecodeError;
  py_str := fun _ => lit "?"
|}.

(** A generator that counts: 0, 1, 2, ... *)
Definition counter : nat -> Init.Byte.byte := fun i => octet (N.of_nat i).

Definition w0 : world := World counter [].

Definition greeting : str :=
  lit "LWSS V 16.1.11.06 | ~API:1.6~ | Session-Token: abc123".

Definition peer (msgs : list message) (e : ending) : connection :=
  Connection msgs e (fun _ => false).

End Sample.

(** ** Notions used in the statements *)

(** The two draws of one [get_auth_payload] call started in world [w], and
    the key it derives from the first. *)
Definition seed_of (w : world) : bytes := map (entropy w) (seq 0 16).
Definition iv_of (w : world) : bytes := map (entropy w) (seq 16 16).
Definition aes_key_of (w : world) : bytes := map octet (bytes_hex (seed_of w)).

(** The text line 42 builds. *)
Definition rsa_text (w : world) (session_token : str) : str :=
  bytes_hex (aes_key_of w) ++ colon ++ bytes_hex (iv_of w) ++ colon
  ++ session_token.

(** The events a call or a step added to the trace. *)
Definition new_events (w w' : world) : list event :=
  drop (List.length (trace w)) (trace w').

(** The text after the first occurrence of [p] in [s], if there is one. *)
Fixpoint after_first (s p : str) : option str :=
  if startswith s p then Some (drop (List.length p) s)
  else match s with
       | [] => None
       | _ :: s' => after_first s' p
       end.

(** The text before the first occurrence of [p] in [s]; all of [s] if
    there is none. *)
Fixpoint before_first (s p : str) : str :=
  if startswith s p then []
  else match s with
       | [] => []
       | c :: s' => c :: before_first s' p
       end.

(** What [get_auth_payload], called with this key, session token and
    token in world [w], may hand to the libraries. *)
Definition encryptor_event (public_key : json) (session_token token : str)
    (w : world) (e : event) : Prop :=
  match e with
  | EvEncryptor _ _ _ _ | EvSend _ => False
  | EvRandom out => out = seed_of w \/ out = iv_of w
  | EvRsaImportKey pem =>
      exists k, public_key = JStr k /\ pem = normalize_public_key k
  | EvRsaEncrypt plaintext =>
      encode_utf8 (rsa_text w session_token) = Ok plaintext
  | EvAesNew key iv => key = aes_key_of w /\ iv = iv_of w
  | EvAesEncrypt data =>
      exists token_bytes,
        encode_utf8 token = Ok token_bytes /\ data = pad token_bytes 16
  end.

(** The RSA plaintext as the specification words it: the hex rendering of
    the 16 random bytes, of the IV, and the session token. *)
Definition claimed_rsa_text (w : world) (session_token : str) : str :=
  bytes_hex (seed_of w) ++ colon ++ bytes_hex (iv_of w) ++ colon
  ++ session_token.

(** The session token a greeting [m] leaves behind. *)
Definition token_after_hello (l : locals) (m : str) : option str :=
  match after_first m token_marker with
  | Some rest => Some (strip (before_first rest token_marker))
  | None => session_token l
  end.

(** A greeting that carries the session-token marker. *)
Definition captures_token (msg : message) : bool :=
  match msg with
  | Text m => startswith m hello_prefix && contains m token_marker
  | Binary _ => false
  end.

(** What [get_auth_payload] can be raised out of by a library: the
    exception of [RSA.import_key] on a key it refuses, or of the PKCS#1
    encryption on a plaintext it refuses. *)
Definition raised_by_rsa (lib : libraries) (e : exn) : Prop :=
  (exists pem, RSA_import_key lib pem = None /\ e = RSA_import_error lib pem) \/
  (exists k plaintext ent,
     fst (PKCS1_v1_5_encrypt lib k plaintext ent) = None /\
     e = PKCS1_v1_5_error lib k plaintext).

(** The exceptions [authenticate_with_audio_server] lets through
    unchanged: those of its own value accesses and encodings and of the
    connection, and whatever [json.loads], [RSA.import_key] or the PKCS#1
    encryption raise on an input they refuse. *)
Definition propagated (lib : libraries) (e : exn) : Prop :=
  In e [TypeError; AttributeError; KeyError; UnicodeEncodeError;
        ConnectionClosed; ConnectionClosedError] \/
  (exists m, json_loads lib m = None /\ e = json_loads_error lib m) \/
  raised_by_rsa lib e.

(** An authenticate command is among the commands sent so far. *)
Definition authenticate_sent (w : world) : Prop :=
  exists cmd, In cmd (sent (trace w)) /\
              startswith cmd authenticate_prefix = true.

(** ** Further notions used in the statements *)

(** A text that neither starts nor ends with white space. *)
Definition trimmed (s : str) : Prop :=
  (forall c, head s = Some c -> isspace c = false) /\
  (forall c, last s = Some c -> isspace c = false).

(** The characters of [s] that are not white space, in order. *)
Definition ink (s : str) : str := List.filter (fun c => negb (isspace c)) s.

(** A text [s.encode("utf-8")] accepts: one without surrogates. *)
Definition encodable (s : str) : Prop := exists b, encode_utf8 s = Ok b.

(** The characters a percent-encoded path is made of: the unreserved
    ones, ['%'] and ['/']. *)
Definition url_char (c : N) : bool := always_safe c || (c =? 37) || (c =? 47).

(** The bytes line 42 produces, given the encoded session token. *)
Definition rsa_payload_of (w : world) (token_bytes : bytes) : bytes :=
  map octet (bytes_hex (aes_key_of w) ++ colon ++ bytes_hex (iv_of w) ++ colon)
  ++ token_bytes.

(** The sample environment with a decoder that knows some malformed
    replies too. *)
Module Sample2.

Definition no_pubkey_reply : string := "{'getkey_result': [{}]}".
Definition number_reply : string := "{'getkey_result': 5}".
Definition map_reply : string := "{'getkey_result': {'pubkey': 'x'}}".
Definition string_reply : string := "{'getkey_result': 'key'}".

Definition documents : list (string * json) :=
  Sample.documents ++
  [ (no_pubkey_reply, Sample.dict [("getkey_result", JList [Sample.dict []])]);
    (number_reply, Sample.dict [("getkey_result", JInt 5)]);
    (map_reply,
     Sample.dict [("getkey_result", Sample.dict [("pubkey", JStr (lit "x"))])]);
    (string_reply, Sample.dict [("getkey_result", JStr (lit "key"))]) ]%string.

Definition libs : libraries := {|
  rsa_key := rsa_key Sample.libs;
  RSA_import_key := RSA_import_key Sample.libs;
  RSA_import_error := RSA_import_error Sample.libs;
  PKCS1_v1_5_encrypt := PKCS1_v1_5_encrypt Sample.libs;
  PKCS1_v1_5_error := PKCS1_v1_5_error Sample.libs;
  AES_CBC_encrypt := AES_CBC_encrypt Sample.libs;
  json_loads := Sample.lookup_document documents;
  json_loads_error := json_loads_error Sample.libs;
  py_str := py_str Sample.libs
|}.

End Sample2.

(** The session token after a message, given the one before it: only a
    greeting changes it. *)
Definition greeting_token (t : option str) (msg : message) : option str :=
  match msg with
  | Text m =>
      if startswith m hello_prefix then token_after_hello (Locals t None) m
      else t
  | Binary _ => t
  end.

(** A command the module may send: the key request or an authenticate
    command. *)
Definition known_command (cmd : str) : Prop :=
  cmd = getkey_command \/ startswith cmd authenticate_prefix = true.

(** An entry into the encryptor with a session token that is neither empty
    nor padded with white space, for this token and user. *)
Definition sound_entry (token active_user : str) (e : event) : Prop :=
  match e with
  | EvEncryptor _ st t u =>
      st <> [] /\ trimmed st /\ t = token /\ u = active_user
  | _ => True
  end.

Section StepKinds.

Variable lib : libraries.
Variable conn : connection.
Variables token active_user : str.

(** The three kinds of step: one that leaves the world alone, a greeting
    (the key request goes out), a key disclosure answered by the
    encryptor. *)
Inductive step_kind (l : locals) (msg : message) (w : world)
    (c : result control) (w' : world) : Prop :=
| QuietStep :
    w' = w ->
    (forall l', c = Ok (Continue l') -> l' = l) ->
    step_kind l msg w c w'
| HelloStep m :
    msg = Text m ->
    startswith m hello_prefix = true ->
    w' = World (entropy w) (trace w ++ [EvSend getkey_command]) ->
    c = (if send_fails conn (List.length (sent (trace w)))
         then Err ConnectionClosed
         else Ok (Continue (Locals (token_after_hello l m) (auth_result l)))) ->
    step_kind l msg w c w'
| KeyStep m tk pk r w1 :
    msg = Text m ->
    startswith m hello_prefix = false ->
    session_token l = Some tk ->
    tk <> [] ->
    get_auth_payload lib pk tk token active_user w = (r, w1) ->
    match r with
    | Err e => c = Err e /\ w' = w1
    | Ok cmd =>
        w' = World (entropy w1) (trace w1 ++ [EvSend cmd]) /\
        c = (if send_fails conn (List.length (sent (trace w1)))
             then Err ConnectionClosed
             else Ok (Continue l))
    end ->
    step_kind l msg w c w'.

End StepKinds.

(** Loop invariant: as long as nothing has been sent no token is held, and
    what was sent first is the key request. *)
Definition key_request_first_inv (l : locals) (w : world) : Prop :=
  (sent (trace w) = [] -> session_token l = None) /\
  (forall c, head (sent (trace w)) = Some c -> c = getkey_command).

(** Loop invariant: the session token held is stripped text, and the
    entries into the encryptor made since [w0] are sound. *)
Definition entries_sound_inv (token active_user : str) (w0 : world)
    (l : locals) (w : world) : Prop :=
  (forall tk, session_token l = Some tk -> trimmed tk) /\
  exists new, trace w = trace w0 ++ new /\
              Forall (sound_entry token active_user) new.
(** * Properties *)

(** ** Strings *)

Section StrLemmas.

Implicit Types s p t old new : list N.

Lemma startswith_nil s : startswith s [] = true.
Proof. by destruct s. Qed.

Lemma startswith_app p s : startswith (p ++ s) p = true.
Proof.
  induction p as [|c p IH]; simpl; [apply startswith_nil|].
  unfold chr_eqb. by rewrite N.eqb_refl.
Qed.

Lemma startswith_app_l s p t :
  startswith s p = true -> startswith (s ++ t) p = true.
Proof.
  revert p. induction s as [|c s IH]; intros [|a p] H;
    try apply startswith_nil; try done.
  simpl in *. apply andb_prop in H as [-> H]. by rewrite IH.
Qed.

Lemma startswith_prefix s p :
  startswith s p = true -> s = p ++ drop (List.length p) s.
Proof.
  revert p. induction s as [|c s IH]; intros [|a p] H; try done.
  simpl in *. apply andb_prop in H as [Hc H]. apply N.eqb_eq in Hc as ->.
  f_equal. by apply IH.
Qed.

Lemma startswith_head_ne a p c s :
  a <> c -> startswith (c :: s) (a :: p) = false.
Proof.
  intros H. simpl. unfold chr_eqb.
  by destruct (N.eqb_spec a c).
Qed.

Lemma contains_false_cons c s p :
  contains (c :: s) p = false ->
  startswith (c :: s) p = false /\ contains s p = false.
Proof. simpl. by intros [? ?]%orb_false_elim. Qed.

Lemma contains_nil s : contains s [] = true.
Proof. by destruct s. Qed.

Lemma contains_app_l s t p :
  contains s p = true -> contains (s ++ t) p = true.
Proof.
  induction s as [|c s IH]; intros H.
  - destruct p; [apply contains_nil | done].
  - apply orb_prop in H. apply orb_true_intro. destruct H as [H|H].
    + left. exact (startswith_app_l (c :: s) p t H).
    + right. by apply IH.
Qed.

Lemma contains_app_r s t p :
  contains t p = true -> contains (s ++ t) p = true.
Proof.
  intros H. induction s as [|c s IH]; [done|].
  simpl. rewrite IH. apply orb_true_r.
Qed.

(** Passing the rest of a matched occurrence. *)
Lemma replace_from_skip old new t s :
  replace_from old new (t ++ s) (List.length t) = replace_from old new s O.
Proof. induction t as [|c t IH]; [done|]. simpl. apply IH. Qed.

Lemma replace_from_match c old new s :
  replace_from (c :: old) new ((c :: old) ++ s) O
  = new ++ replace_from (c :: old) new s O.
Proof.
  change (replace_from (c :: old) new ((c :: old) ++ s) 0)
    with (if startswith ((c :: old) ++ s) (c :: old)
          then new ++ replace_from (c :: old) new (old ++ s) (List.length old)
          else c :: replace_from (c :: old) new (old ++ s) 0).
  by rewrite startswith_app, replace_from_skip.
Qed.

(** Characters other than the first of [old] are copied. *)
Lemma replace_from_copy c old new t s :
  Forall (fun x => x <> c) t ->
  replace_from (c :: old) new (t ++ s) O
  = t ++ replace_from (c :: old) new s O.
Proof.
  induction 1 as [|x t Hx _ IH]; [done|].
  change (replace_from (c :: old) new ((x :: t) ++ s) 0)
    with (if startswith (x :: t ++ s) (c :: old)
          then new ++ replace_from (c :: old) new (t ++ s) (List.length old)
          else x :: replace_from (c :: old) new (t ++ s) 0).
  rewrite startswith_head_ne by congruence. by rewrite IH.
Qed.

Lemma replace_absent s old new :
  old <> [] -> contains s old = false -> replace s old new = s.
Proof.
  destruct old as [|c old]; [done|]. intros _. unfold replace.
  induction s as [|x s IH]; [done|].
  intros [Hs Hc]%contains_false_cons.
  change (replace_from (c :: old) new (x :: s) 0)
    with (if startswith (x :: s) (c :: old)
          then new ++ replace_from (c :: old) new s (List.length old)
          else x :: replace_from (c :: old) new s 0).
  rewrite Hs. f_equal. by apply IH.
Qed.

Lemma lstrip_suffix s : exists a, s = a ++ lstrip s.
Proof.
  induction s as [|c s [a IH]]; [by exists []|].
  simpl. destruct (isspace c); [|by exists []].
  exists (c :: a). simpl. by f_equal.
Qed.

Lemma lstrip_head s :
  match lstrip s with
  | [] => True
  | c :: _ => isspace c = false
  end.
Proof.
  induction s as [|c s IH]; [done|].
  simpl. by destruct (isspace c) eqn:E.
Qed.

Lemma lstrip_idem s : lstrip (lstrip s) = lstrip s.
Proof.
  pose proof (lstrip_head s) as H.
  destruct (lstrip s) as [|c t]; [done|]. simpl. by rewrite H.
Qed.

Lemma lstrip_snoc s c :
  isspace c = false -> lstrip (s ++ [c]) = lstrip s ++ [c].
Proof.
  intros H. induction s as [|x s IH]; simpl; [by rewrite H|].
  by destruct (isspace x).
Qed.

Lemma rstrip_cons c s :
  isspace c = false -> rstrip (c :: s) = c :: rstrip s.
Proof.
  intros H. unfold rstrip. simpl.
  by rewrite lstrip_snoc, rev_app_distr.
Qed.

Lemma rstrip_idem s : rstrip (rstrip s) = rstrip s.
Proof. unfold rstrip. by rewrite rev_involutive, lstrip_idem. Qed.

Lemma rstrip_prefix s : exists b, s = rstrip s ++ b.
Proof.
  unfold rstrip. destruct (lstrip_suffix (rev s)) as [a Ha].
  exists (rev a). rewrite <- rev_app_distr, <- Ha. by rewrite rev_involutive.
Qed.

Lemma strip_idem s : strip (strip s) = strip s.
Proof.
  unfold strip. pose proof (lstrip_head s) as H.
  destruct (lstrip s) as [|c t]; [done|].
  rewrite rstrip_cons by done. simpl. rewrite H.
  rewrite <- rstrip_cons by done. apply rstrip_idem.
Qed.

Lemma strip_infix s : exists a b, s = a ++ strip s ++ b.
Proof.
  unfold strip. destruct (lstrip_suffix s) as [a Ha].
  destruct (rstrip_prefix (lstrip s)) as [b Hb].
  exists a, b. by rewrite <- Hb.
Qed.

Lemma contains_strip s p :
  contains s p = false -> contains (strip s) p = false.
Proof.
  intros H. destruct (contains (strip s) p) eqn:E; [|done].
  destruct (strip_infix s) as (a & b & Hs).
  rewrite Hs in H. rewrite contains_app_r in H; [done|].
  by apply contains_app_l.
Qed.

(** [strip] leaves alone a text that neither starts nor ends with
    white space. *)
Lemma strip_fixed c s d :
  isspace c = false -> isspace d = false ->
  strip (c :: s ++ [d]) = c :: s ++ [d].
Proof.
  intros Hc Hd. unfold strip. simpl. rewrite Hc.
  unfold rstrip. simpl. rewrite rev_app_distr. simpl. rewrite Hd.
  simpl. by rewrite rev_app_distr, rev_involutive.
Qed.

End StrLemmas.

(** ** [normalize_public_key] *)

Section Normalizer.

Implicit Types s body rest : list N.

Lemma replace_at_head c old new rest :
  replace ((c :: old) ++ rest) (c :: old) new
  = new ++ replace rest (c :: old) new.
Proof. apply replace_from_match. Qed.

Lemma replace_copy c old new body rest :
  Forall (fun x => x <> c) body ->
  replace (body ++ rest) (c :: old) new = body ++ replace rest (c :: old) new.
Proof. apply replace_from_copy. Qed.

Lemma header_cons : header = dash :: tl header.
Proof. reflexivity. Qed.

Lemma footer_cons : footer = dash :: tl footer.
Proof. reflexivity. Qed.

Lemma footer_snoc : footer = removelast footer ++ [dash].
Proof. reflexivity. Qed.

(** No footer marker starts inside [header ++ newline], whatever
    follows. *)
Lemma footer_not_in_header new rest :
  replace (header ++ newline ++ rest) footer new
  = header ++ newline ++ replace rest footer new.
Proof. reflexivity. Qed.

Lemma header_not_in_footer new : replace footer header new = footer.
Proof. reflexivity. Qed.

Lemma footer_at_end new : replace footer footer new = new.
Proof.
  rewrite <- (app_nil_r footer) at 1. rewrite footer_cons at 1 2.
  rewrite replace_at_head. apply app_nil_r.
Qed.

Lemma strip_between_markers s :
  strip (header ++ s ++ footer) = header ++ s ++ footer.
Proof.
  rewrite header_cons, footer_snoc.
  change ((dash :: tl header) ++ s ++ removelast footer ++ [dash])
    with (dash :: tl header ++ s ++ removelast footer ++ [dash]).
  rewrite !app_assoc. rewrite <- (app_assoc (tl header)).
  by apply strip_fixed.
Qed.

Lemma no_dash_newline body :
  Forall (fun x => x <> dash) body ->
  Forall (fun x => x <> dash) (newline ++ body ++ newline).
Proof.
  intros H. apply Forall_app. split; [by repeat constructor|].
  apply Forall_app. split; [done | by repeat constructor].
Qed.

(** A one-line key comes out as three lines. *)
Lemma normalize_single_line body :
  Forall (fun x => x <> dash) body ->
  normalize_public_key (header ++ body ++ footer)
  = header ++ newline ++ body ++ newline ++ footer.
Proof.
  intros H. unfold normalize_public_key.
  rewrite header_cons at 1 2. rewrite replace_at_head.
  rewrite replace_copy by done. rewrite <- header_cons.
  rewrite header_not_in_footer.
  rewrite <- app_assoc. rewrite footer_not_in_header.
  rewrite footer_cons at 2. rewrite replace_copy by done.
  rewrite <- footer_cons. rewrite footer_at_end.
  rewrite (app_assoc body), (app_assoc newline).
  rewrite strip_between_markers. by rewrite <- !app_assoc.
Qed.

(** Normalizing those three lines again doubles both line breaks. *)
Lemma normalize_normalized body :
  Forall (fun x => x <> dash) body ->
  normalize_public_key (header ++ newline ++ body ++ newline ++ footer)
  = header ++ newline ++ newline ++ body ++ newline ++ newline ++ footer.
Proof.
  intros H. unfold normalize_public_key.
  rewrite header_cons at 1 2. rewrite replace_at_head.
  rewrite (app_assoc body), (app_assoc newline).
  rewrite replace_copy by (by apply no_dash_newline).
  rewrite <- header_cons. rewrite header_not_in_footer.
  rewrite <- (app_assoc header). rewrite footer_not_in_header.
  rewrite footer_cons at 2.
  rewrite replace_copy by (by apply no_dash_newline).
  rewrite <- footer_cons. rewrite footer_at_end.
  replace (newline ++ (newline ++ body ++ newline) ++ newline ++ footer)
    with ((newline ++ newline ++ body ++ newline ++ newline) ++ footer)
    by (by rewrite <- !app_assoc).
  rewrite strip_between_markers. by rewrite <- !app_assoc.
Qed.

Lemma normalize_without_markers s :
  contains s header = false -> contains s footer = false ->
  normalize_public_key s = strip s.
Proof.
  intros Hh Hf. unfold normalize_public_key.
  rewrite (replace_absent s header) by done.
  by rewrite replace_absent.
Qed.

End Normalizer.

(** C4 (as stated, refuted).  A one-line key, once normalized, is changed
    by a second normalization: each call puts one more line break after
    the header marker and before the footer marker. *)
Lemma normalize_public_key_not_idempotent :
  let key := lit "-----BEGIN PUBLIC KEY-----MIIB==-----END PUBLIC KEY-----" in
  let normalized := header ++ newline ++ lit "MIIB==" ++ newline ++ footer in
  normalize_public_key key = normalized /\
  normalize_public_key normalized
  = header ++ newline ++ newline ++ lit "MIIB==" ++ newline ++ newline ++ footer /\
  normalize_public_key normalized <> normalized /\
  normalize_public_key (normalize_public_key key) <> normalize_public_key key.
Proof.
  repeat split; try (vm_compute; reflexivity);
    intros H; vm_compute in H; discriminate H.
Qed.

(** C4 (amended).  [normalize_public_key] is idempotent on a text [s] in
    which neither marker occurs, where it only strips white space.  On a
    key with the markers it is not: for a body without ['-'], the one-line
    key [header body footer] becomes the three lines
    [header \n body \n footer], and normalizing these three lines again
    yields [header \n\n body \n\n footer]. *)
Theorem normalize_public_key_twice (s body : list N)
    (Hheader : contains s header = false)
    (Hfooter : contains s footer = false)
    (Hbody : Forall (fun x => x <> dash) body) :
  normalize_public_key (normalize_public_key s) = normalize_public_key s /\
  normalize_public_key (header ++ body ++ footer)
  = header ++ newline ++ body ++ newline ++ footer /\
  normalize_public_key (normalize_public_key (header ++ body ++ footer))
  = header ++ newline ++ newline ++ body ++ newline ++ newline ++ footer.
Proof.
  split; [|split].
  - rewrite (normalize_without_markers s) by done.
    rewrite normalize_without_markers by (by apply contains_strip).
    apply strip_idem.
  - by apply normalize_single_line.
  - rewrite normalize_single_line by done. by apply normalize_normalized.
Qed.

Lemma normalize_public_key_twice_witness :
  let s := lit "  MIIBIjANBgkq " in
  let body := lit "MIIB==" in
  normalize_public_key (normalize_public_key s) = normalize_public_key s /\
  normalize_public_key (header ++ body ++ footer)
  = header ++ newline ++ body ++ newline ++ footer /\
  normalize_public_key (normalize_public_key (header ++ body ++ footer))
  = header ++ newline ++ newline ++ body ++ newline ++ newline ++ footer.
Proof.
  apply (normalize_public_key_twice (lit "  MIIBIjANBgkq ") (lit "MIIB==")).
  - vm_compute. reflexivity.
  - vm_compute. reflexivity.
  - repeat (constructor; [discriminate|]). constructor.
Defined.

(** ** Encodings *)

Section CodecLemmas.

Implicit Types b : Init.Byte.byte.
Implicit Types bs : list Init.Byte.byte.
Implicit Types s : list N.

Lemma to_N_lt b : Byte.to_N b < 256.
Proof. pose proof (Byte.to_N_bounded b). lia. Qed.

Lemma octet_to_N b : octet (Byte.to_N b) = b.
Proof.
  unfold octet. rewrite N.mod_small by apply to_N_lt.
  by rewrite Byte.of_to_N.
Qed.

Lemma to_N_octet n : n < 256 -> Byte.to_N (octet n) = n.
Proof.
  intros H. unfold octet. rewrite N.mod_small by done.
  destruct (Byte.of_N n) as [b|] eqn:E.
  - by apply Byte.to_of_N.
  - apply Byte.of_N_None_iff in E. lia.
Qed.

Lemma hexdigit_lower d : d < 16 -> is_lower_hex (hexdigit d) = true.
Proof.
  intros H. unfold is_lower_hex, hexdigit.
  apply orb_true_iff. destruct (N.ltb_spec d 10); [left|right];
    apply andb_true_iff; split; apply N.leb_le; lia.
Qed.

Lemma is_lower_hex_ascii c : is_lower_hex c = true -> c < 128.
Proof.
  unfold is_lower_hex.
  intros [[_ H]%andb_prop|[_ H]%andb_prop]%orb_prop;
    apply N.leb_le in H; lia.
Qed.

Lemma hex_byte_lower b : Forall (fun c => is_lower_hex c = true) (hex_byte b).
Proof.
  pose proof (to_N_lt b) as H. unfold hex_byte.
  repeat constructor; apply hexdigit_lower.
  - apply N.Div0.div_lt_upper_bound. lia.
  - by apply N.mod_lt.
Qed.

Lemma bytes_hex_lower bs :
  Forall (fun c => is_lower_hex c = true) (bytes_hex bs).
Proof.
  induction bs as [|b bs IH]; [constructor|].
  change (bytes_hex (b :: bs)) with (hex_byte b ++ bytes_hex bs).
  apply Forall_app. split; [apply hex_byte_lower | done].
Qed.

Lemma length_bytes_hex bs :
  List.length (bytes_hex bs) = (2 * List.length bs)%nat.
Proof. induction bs as [|b bs IH]; simpl; lia. Qed.

Lemma encode_utf8_ascii s :
  Forall (fun c => c < 128) s -> encode_utf8 s = Ok (map octet s).
Proof.
  induction 1 as [|c s Hc _ IH]; [done|].
  simpl. unfold encode_char.
  apply N.ltb_lt in Hc. rewrite Hc. by rewrite IH.
Qed.

(** [bytes.hex()] is ASCII text: encoding it cannot fail. *)
Lemma encode_utf8_hex bs :
  encode_utf8 (bytes_hex bs) = Ok (map octet (bytes_hex bs)).
Proof.
  apply encode_utf8_ascii.
  eapply Forall_impl; [apply bytes_hex_lower|].
  intros c. apply is_lower_hex_ascii.
Qed.

Lemma hex_key_lower bs :
  Forall (fun x => is_lower_hex (Byte.to_N x) = true)
         (map octet (bytes_hex bs)).
Proof.
  apply Forall_map. eapply Forall_impl; [apply bytes_hex_lower|].
  intros c Hc. simpl. rewrite to_N_octet; [done|].
  apply is_lower_hex_ascii in Hc. lia.
Qed.

Lemma b64char_ascii n : Byte.to_N (b64char n) < 128.
Proof.
  unfold b64char.
  destruct (N.ltb_spec n 26); [rewrite to_N_octet; lia|].
  destruct (N.ltb_spec n 52); [rewrite to_N_octet; lia|].
  destruct (N.ltb_spec n 62); [rewrite to_N_octet; lia|].
  destruct (n =? 62); rewrite to_N_octet; lia.
Qed.

Lemma triples_ind (P : list Init.Byte.byte -> Prop) :
  P [] -> (forall x, P [x]) -> (forall x y, P [x; y]) ->
  (forall x y z rest, P rest -> P (x :: y :: z :: rest)) ->
  forall bs, P bs.
Proof.
  intros H0 H1 H2 H3. fix IH 1.
  intros [|x [|y [|z rest]]]; [done..|]. apply H3, IH.
Qed.

Lemma b64encode_ascii bs :
  forallb (fun x => Byte.to_N x <? 128) (b64encode bs) = true.
Proof.
  induction bs as [|x|x y|x y z rest IH] using triples_ind; [done|..];
    cbn [b64encode forallb]; rewrite ?IH, ?andb_true_r;
    repeat (apply andb_true_intro; split);
    try reflexivity; apply N.ltb_lt, b64char_ascii.
Qed.

Lemma decode_ascii_b64 bs :
  decode_ascii (b64encode bs) = Ok (map Byte.to_N (b64encode bs)).
Proof. unfold decode_ascii. by rewrite b64encode_ascii. Qed.

Lemma encode_utf8_to_N bs :
  forallb (fun x => Byte.to_N x <? 128) bs = true ->
  encode_utf8 (map Byte.to_N bs) = Ok bs.
Proof.
  intros H. rewrite encode_utf8_ascii.
  - rewrite map_map. f_equal. rewrite <- (map_id bs) at 2.
    apply map_ext. intros b. apply octet_to_N.
  - apply Forall_map. pose proof (proj1 (forallb_forall _ _) H) as H'.
    apply List.Forall_forall. intros b Hb. simpl.
    by apply N.ltb_lt, H'.
Qed.

(** [quote] of base64 text. *)
Lemma quote_b64 bs :
  quote (map Byte.to_N (b64encode bs)) = Ok (flat_map quote_byte (b64encode bs)).
Proof.
  unfold quote. destruct (map Byte.to_N (b64encode bs)) eqn:E.
  - by destruct (b64encode bs).
  - rewrite <- E. by rewrite encode_utf8_to_N by apply b64encode_ascii.
Qed.

Lemma hexdigit_upper_no_slash d : hexdigit_upper d <> 47.
Proof. unfold hexdigit_upper. destruct (d <? 10); lia. Qed.

Lemma quote_byte_no_slash b : Forall (fun c => c <> 47) (quote_byte b).
Proof.
  unfold quote_byte. destruct (always_safe (Byte.to_N b)) eqn:E.
  - repeat constructor. intros H. by rewrite H in E.
  - repeat constructor; try apply hexdigit_upper_no_slash. lia.
Qed.

Lemma quote_no_slash s q : quote s = Ok q -> Forall (fun c => c <> 47) q.
Proof.
  unfold quote. destruct s as [|c s]; [by intros [= <-]|].
  destruct (encode_utf8 (c :: s)) as [bs|]; [|done].
  intros [= <-]. induction bs as [|b bs IH]; [constructor|].
  simpl. apply Forall_app. split; [apply quote_byte_no_slash | done].
Qed.

Lemma length_pad data :
  (List.length (pad data 16) mod 16 = 0)%nat.
Proof.
  unfold pad. rewrite length_app, repeat_length.
  pose proof (Nat.div_mod_eq (List.length data) 16) as H.
  pose proof (Nat.mod_upper_bound (List.length data) 16) as Hr.
  replace (List.length data + (16 - List.length data mod 16))%nat
    with ((List.length data / 16 + 1) * 16)%nat by lia.
  apply Nat.Div0.mod_mul.
Qed.

End CodecLemmas.

(** ** [str.split] *)

Section SplitLemmas.

Implicit Types s p t cur : list N.

Lemma split_from_skip p t s cur :
  split_from p (t ++ s) (List.length t) cur = split_from p s O cur.
Proof. induction t as [|c t IH]; [done|]. simpl. apply IH. Qed.

Lemma split_from_fields a p s cur :
  split_from (a :: p) s O cur
  = (rev cur ++ before_first s (a :: p))
    :: match after_first s (a :: p) with
       | Some rest => split_from (a :: p) rest O []
       | None => []
       end.
Proof.
  revert cur. induction s as [|c s IH]; intros cur.
  - simpl. by rewrite app_nil_r.
  - change (split_from (a :: p) (c :: s) 0 cur)
      with (if startswith (c :: s) (a :: p)
            then rev cur :: split_from (a :: p) s (List.length p) []
            else split_from (a :: p) s 0 (c :: cur)).
    change (before_first (c :: s) (a :: p))
      with (if startswith (c :: s) (a :: p) then []
            else c :: before_first s (a :: p)).
    change (after_first (c :: s) (a :: p))
      with (if startswith (c :: s) (a :: p)
            then Some (drop (List.length p) s)
            else after_first s (a :: p)).
    destruct (startswith (c :: s) (a :: p)) eqn:E.
    + rewrite app_nil_r. f_equal.
      apply startswith_prefix in E. injection E as _ E.
      rewrite E at 1. apply split_from_skip.
    + rewrite IH. simpl. by rewrite <- app_assoc.
Qed.

(** The fields of [s.split(p)]: the text before the first occurrence, then
    the fields of the text after it. *)
Lemma split_fields a p s :
  split s (a :: p)
  = before_first s (a :: p)
    :: match after_first s (a :: p) with
       | Some rest => split rest (a :: p)
       | None => []
       end.
Proof. unfold split. by rewrite split_from_fields. Qed.

Lemma contains_after_first s p :
  contains s p = true <-> exists rest, after_first s p = Some rest.
Proof.
  induction s as [|c s IH].
  - destruct p; simpl; split; eauto; try done.
    intros [rest H]. discriminate H.
  - change (contains (c :: s) p)
      with (startswith (c :: s) p || contains s p).
    change (after_first (c :: s) p)
      with (if startswith (c :: s) p
            then Some (drop (List.length p) (c :: s))
            else after_first s p).
    destruct (startswith (c :: s) p); [split; eauto|]. apply IH.
Qed.

(** [s.split(p)[1]] *)
Lemma split_second a p s :
  split s (a :: p) !! 1%nat
  = match after_first s (a :: p) with
    | Some rest => Some (before_first rest (a :: p))
    | None => None
    end.
Proof.
  rewrite split_fields. destruct (after_first s (a :: p)) as [rest|]; [|done].
  by rewrite split_fields.
Qed.

Lemma before_first_absent s p : contains s p = false -> before_first s p = s.
Proof.
  induction s as [|c s IH].
  - by destruct p.
  - intros [Hs Hc]%contains_false_cons.
    change (before_first (c :: s) p)
      with (if startswith (c :: s) p then []
            else c :: before_first s p).
    rewrite Hs. f_equal. by apply IH.
Qed.

Lemma after_first_absent s p : contains s p = false -> after_first s p = None.
Proof.
  intros H. destruct (after_first s p) as [rest|] eqn:E; [|done].
  assert (contains s p = true) by (apply contains_after_first; eauto).
  congruence.
Qed.

Lemma contains_char_absent a p s :
  Forall (fun x => x <> a) s -> contains s (a :: p) = false.
Proof.
  induction 1 as [|c s Hc _ IH]; [done|].
  change (contains (c :: s) (a :: p))
    with (startswith (c :: s) (a :: p) || contains s (a :: p)).
  rewrite startswith_head_ne by congruence. by rewrite IH.
Qed.

Lemma before_first_unfold s p :
  before_first s p
  = if startswith s p then []
    else match s with
         | [] => []
         | c :: s' => c :: before_first s' p
         end.
Proof. by destruct s. Qed.

Lemma after_first_unfold s p :
  after_first s p
  = if startswith s p then Some (drop (List.length p) s)
    else match s with
         | [] => None
         | _ :: s' => after_first s' p
         end.
Proof. by destruct s. Qed.

Lemma before_first_app a p t s :
  Forall (fun x => x <> a) t ->
  before_first (t ++ (a :: p) ++ s) (a :: p) = t.
Proof.
  induction 1 as [|c t Hc _ IH].
  - change ([] ++ (a :: p) ++ s) with ((a :: p) ++ s).
    by rewrite before_first_unfold, startswith_app.
  - change (before_first ((c :: t) ++ (a :: p) ++ s) (a :: p))
      with (if startswith (c :: t ++ (a :: p) ++ s) (a :: p) then []
            else c :: before_first (t ++ (a :: p) ++ s) (a :: p)).
    rewrite startswith_head_ne by congruence. by rewrite IH.
Qed.

Lemma after_first_app a p t s :
  Forall (fun x => x <> a) t ->
  after_first (t ++ (a :: p) ++ s) (a :: p) = Some s.
Proof.
  induction 1 as [|c t Hc _ IH].
  - change ([] ++ (a :: p) ++ s) with ((a :: p) ++ s).
    rewrite after_first_unfold, startswith_app.
    f_equal. by rewrite drop_app_length.
  - change (after_first ((c :: t) ++ (a :: p) ++ s) (a :: p))
      with (if startswith (c :: t ++ (a :: p) ++ s) (a :: p)
            then Some (drop (List.length (a :: p)) (c :: t ++ (a :: p) ++ s))
            else after_first (t ++ (a :: p) ++ s) (a :: p)).
    rewrite startswith_head_ne by congruence. by rewrite IH.
Qed.

(** Three texts without ['/'], joined by ['/'], split back into the
    three. *)
Lemma split_three u r c :
  Forall (fun x => x <> 47) u -> Forall (fun x => x <> 47) r ->
  Forall (fun x => x <> 47) c ->
  split (u ++ slash ++ r ++ slash ++ c) slash = [u; r; c].
Proof.
  intros Hu Hr Hc. change slash with [47].
  rewrite split_fields, before_first_app, after_first_app by done.
  rewrite split_fields, before_first_app, after_first_app by done.
  rewrite split_fields.
  rewrite before_first_absent, after_first_absent
    by (by apply contains_char_absent).
  done.
Qed.

End SplitLemmas.

(** ** [get_auth_payload] *)

Section EncryptorLemmas.

Variable lib : libraries.

Lemma length_seed_of w : List.length (seed_of w) = 16%nat.
Proof. unfold seed_of. by rewrite length_map, length_seq. Qed.

Lemma length_iv_of w : List.length (iv_of w) = 16%nat.
Proof. unfold iv_of. by rewrite length_map, length_seq. Qed.

Lemma length_aes_key_of w : List.length (aes_key_of w) = 32%nat.
Proof.
  unfold aes_key_of. by rewrite length_map, length_bytes_hex, length_seed_of.
Qed.

(** The call with the steps that cannot fail resolved: the key text and
    the base64 texts always encode, [AES.new] always accepts the key and
    the IV, the padded token always fills whole blocks. *)
Lemma get_auth_payload_unfold k st tok au w :
  get_auth_payload lib (JStr k) st tok au w =
  let ent := fun i => entropy w (16 + (16 + i))%nat in
  let pem := normalize_public_key k in
  let t2 := trace w ++ [EvEncryptor (JStr k) st tok au;
                        EvRandom (seed_of w); EvRandom (iv_of w)] in
  match encode_utf8 (rsa_text w st) with
  | Err e => (Err e, World ent t2)
  | Ok payload =>
      match RSA_import_key lib pem with
      | None =>
          (Err (RSA_import_error lib pem),
           World ent (t2 ++ [EvRsaImportKey pem]))
      | Some rk =>
          let t4 := t2 ++ [EvRsaImportKey pem; EvRsaEncrypt payload] in
          let (c, used) := PKCS1_v1_5_encrypt lib rk payload ent in
          let ent' := fun i => ent (used + i)%nat in
          match c with
          | None => (Err (PKCS1_v1_5_error lib rk payload), World ent' t4)
          | Some rsa_out =>
              let t5 := t4 ++ [EvAesNew (aes_key_of w) (iv_of w)] in
              match encode_utf8 tok with
              | Err e => (Err e, World ent' t5)
              | Ok token_bytes =>
                  let padded := pad token_bytes 16 in
                  let t6 := t5 ++ [EvAesEncrypt padded] in
                  let aes_out :=
                    AES_CBC_encrypt lib (aes_key_of w) (iv_of w) padded in
                  match quote au with
                  | Err e => (Err e, World ent' t6)
                  | Ok q_user =>
                      (Ok (authenticate_prefix ++ q_user ++ slash
                           ++ flat_map quote_byte (b64encode rsa_out) ++ slash
                           ++ flat_map quote_byte (b64encode aes_out)),
                       World ent' t6)
                  end
              end
          end
      end
  end.
Proof.
  unfold get_auth_payload, bind, emit, ret, lift, get_random_bytes, import_key,
    rsa_encrypt, AES_new, AES_encrypt, raise.
  cbn [entropy trace].
  rewrite encode_utf8_hex.
  change (map (entropy w) (seq 0 16)) with (seed_of w).
  change (map (fun i : nat => entropy w (16 + i)%nat) (seq 0 16)) with (iv_of w).
  change (map octet (bytes_hex (seed_of w))) with (aes_key_of w).
  fold (rsa_text w st).
  destruct (encode_utf8 (rsa_text w st)) as [payload|e];
    [|by rewrite <- !app_assoc].
  unfold bind, emit, ret. cbn [entropy trace].
  destruct (RSA_import_key lib (normalize_public_key k)) as [rk|];
    [|by rewrite <- !app_assoc].
  cbn [entropy trace].
  destruct (PKCS1_v1_5_encrypt lib rk payload _) as [[rsa_out|] used];
    [|by rewrite <- !app_assoc].
  rewrite decode_ascii_b64.
  rewrite length_aes_key_of, length_iv_of. cbn [existsb Nat.eqb negb orb].
  cbn [entropy trace].
  destruct (encode_utf8 tok) as [token_bytes|e];
    [|by rewrite <- !app_assoc].
  rewrite length_pad. cbn [Nat.eqb negb fst snd].
  rewrite decode_ascii_b64, !quote_b64.
  destruct (quote au) as [q_user|e]; by rewrite <- !app_assoc.
Qed.

End EncryptorLemmas.

Section EncryptorTrace.

Variable lib : libraries.

Lemma new_events_app w w' l : trace w' = trace w ++ l -> new_events w w' = l.
Proof. unfold new_events. intros ->. apply drop_app_length. Qed.


(** Everything one call adds to the trace: its own entry, then calls into
    the libraries with the arguments [encryptor_event] lists. *)
Lemma get_auth_payload_events pk st tok au w r w' :
  get_auth_payload lib pk st tok au w = (r, w') ->
  exists new,
    trace w' = trace w ++ EvEncryptor pk st tok au :: new /\
    Forall (encryptor_event pk st tok w) new.
Proof.
  destruct pk as [| | | |k| |];
    try (intros [= <- <-]; exists []; split; [done | constructor]).
  rewrite get_auth_payload_unfold. cbv zeta.
  destruct (encode_utf8 (rsa_text w st)) as [payload|e] eqn:Ep.
  2: { intros [= <- <-]. eexists. split; [done|].
       repeat (constructor; [cbn [encryptor_event]; eauto|]); constructor. }
  destruct (RSA_import_key lib (normalize_public_key k)) as [rk|].
  2: { intros [= <- <-]. eexists. split; [by rewrite <- app_assoc|].
       repeat (constructor; [cbn [encryptor_event]; eauto|]); constructor. }
  destruct (PKCS1_v1_5_encrypt lib rk payload _) as [[rsa_out|] used].
  2: { intros [= <- <-]. eexists. split; [by rewrite <- app_assoc|].
       repeat (constructor; [cbn [encryptor_event]; eauto|]); constructor. }
  destruct (encode_utf8 tok) as [tb|e] eqn:Et.
  2: { intros [= <- <-]. eexists. split; [by rewrite <- !app_assoc|].
       repeat (constructor; [cbn [encryptor_event]; eauto|]); constructor. }
  destruct (quote au) as [q|e]; intros [= <- <-]; eexists;
    (split; [by rewrite <- !app_assoc|]); repeat (constructor; [cbn [encryptor_event]; eauto|]); constructor.
Qed.

(** A call that returns has been through [AES.new]. *)
Lemma get_auth_payload_calls_aes pk st tok au w cmd w' :
  get_auth_payload lib pk st tok au w = (Ok cmd, w') ->
  In (EvAesNew (aes_key_of w) (iv_of w)) (new_events w w').
Proof.
  destruct pk as [| | | |k| |]; try done.
  rewrite get_auth_payload_unfold. cbv zeta.
  destruct (encode_utf8 (rsa_text w st)) as [payload|e]; [|done].
  destruct (RSA_import_key lib (normalize_public_key k)) as [rk|]; [|done].
  destruct (PKCS1_v1_5_encrypt lib rk payload _) as [[rsa_out|] used]; [|done].
  destruct (encode_utf8 tok) as [tb|e]; [|done].
  destruct (quote au) as [q|e]; [|done].
  intros [= <- <-]. erewrite new_events_app by (by rewrite <- !app_assoc).
  simpl. tauto.
Qed.

Lemma encryptor_event_in pk st tok au w r w' e :
  get_auth_payload lib pk st tok au w = (r, w') ->
  In e (new_events w w') ->
  e = EvEncryptor pk st tok au \/ encryptor_event pk st tok w e.
Proof.
  intros (new & Ht & Hnew)%get_auth_payload_events.
  rewrite (new_events_app _ _ _ Ht). intros [<-|Hin]; [by left|right].
  by apply (proj1 (List.Forall_forall _ _) Hnew).
Qed.

End EncryptorTrace.

(** C1 (as stated, refuted).  In the sample exchange the key is imported
    and the call returns a command; the generator yields the bytes 00..0f
    and then 10..1f.  The text handed to RSA starts with the 64 digits
    [30 30 30 31 ...], the hex rendering of the 32-byte key
    ["000102...0f"], and not with the 32 digits [000102...0f] of the
    random bytes themselves. *)
Lemma rsa_plaintext_is_not_hex_of_seed :
  let run :=
    get_auth_payload Sample.libs (JStr (lit Sample.key_line))
      (lit "abc123") (lit "jwt-token") (lit "user") Sample.w0 in
  let actual :=
    map octet (lit "3030303130323033303430353036303730383039306130623063306430653066:101112131415161718191a1b1c1d1e1f:abc123") in
  let claimed :=
    map octet (lit "000102030405060708090a0b0c0d0e0f:101112131415161718191a1b1c1d1e1f:abc123") in
  In (EvRsaImportKey (normalize_public_key (lit Sample.key_line)))
     (trace (snd run)) /\
  match fst run with Ok _ => True | Err _ => False end /\
  In (EvRsaEncrypt actual) (trace (snd run)) /\
  encode_utf8 (claimed_rsa_text Sample.w0 (lit "abc123")) = Ok claimed /\
  ~ In (EvRsaEncrypt claimed) (trace (snd run)).
Proof.
  split; [|split; [|split; [|split]]].
  - vm_compute. do 3 right. left. reflexivity.
  - vm_compute. exact I.
  - vm_compute. do 4 right. left. reflexivity.
  - vm_compute. reflexivity.
  - vm_compute. intros H.
    repeat (destruct H as [H|H]; [discriminate H|]). exact H.
Qed.

(** C1 (amended).  Whatever plaintext a call of [get_auth_payload] hands
    to RSA encryption is the UTF-8 encoding of
    ["<hex-key>:<hex-iv>:<sessionToken>"], where <hex-key> is the hex
    rendering of the 32-byte AES key, 64 digits (the key being the ASCII
    text of the hex rendering of the 16 random bytes), and <hex-iv> is the
    hex rendering of the 16 IV bytes, 32 digits. *)
Theorem rsa_plaintext (lib : libraries) (pk : json) (st tok au : list N)
    (w : world) (r : result (list N)) (w' : world)
    (plaintext : list Init.Byte.byte)
    (Hrun : get_auth_payload lib pk st tok au w = (r, w'))
    (Hcall : In (EvRsaEncrypt plaintext) (new_events w w')) :
  encode_utf8 (bytes_hex (aes_key_of w) ++ colon ++ bytes_hex (iv_of w)
               ++ colon ++ st) = Ok plaintext /\
  encode_utf8 (bytes_hex (seed_of w)) = Ok (aes_key_of w) /\
  List.length (seed_of w) = 16%nat /\
  List.length (aes_key_of w) = 32%nat /\
  List.length (bytes_hex (aes_key_of w)) = 64%nat /\
  List.length (iv_of w) = 16%nat /\
  List.length (bytes_hex (iv_of w)) = 32%nat.
Proof.
  destruct (encryptor_event_in lib _ _ _ _ _ _ _ _ Hrun Hcall) as [H|H];
    [done|].
  cbn [encryptor_event] in H.
  split; [exact H|]. split; [apply encode_utf8_hex|].
  split; [apply length_seed_of|]. split; [apply length_aes_key_of|].
  split; [by rewrite length_bytes_hex, length_aes_key_of|].
  split; [apply length_iv_of|].
  by rewrite length_bytes_hex, length_iv_of.
Qed.

Lemma rsa_plaintext_witness :
  let w := Sample.w0 in
  let st := lit "abc123" in
  let plaintext :=
    map octet (lit "3030303130323033303430353036303730383039306130623063306430653066:101112131415161718191a1b1c1d1e1f:abc123") in
  encode_utf8 (bytes_hex (aes_key_of w) ++ colon ++ bytes_hex (iv_of w)
               ++ colon ++ st) = Ok plaintext /\
  encode_utf8 (bytes_hex (seed_of w)) = Ok (aes_key_of w) /\
  List.length (seed_of w) = 16%nat /\
  List.length (aes_key_of w) = 32%nat /\
  List.length (bytes_hex (aes_key_of w)) = 64%nat /\
  List.length (iv_of w) = 16%nat /\
  List.length (bytes_hex (iv_of w)) = 32%nat.
Proof.
  pose (run := get_auth_payload Sample.libs (JStr (lit Sample.key_line))
                 (lit "abc123") (lit "jwt-token") (lit "user") Sample.w0).
  apply (rsa_plaintext Sample.libs (JStr (lit Sample.key_line))
           (lit "abc123") (lit "jwt-token") (lit "user") Sample.w0
           (fst run) (snd run)).
  - vm_compute. reflexivity.
  - vm_compute. do 4 right. left. reflexivity.
Defined.

(** The draws of a call come first: whenever a call gets as far as a
    library, the trace shows the two draws right after its entry. *)
Lemma get_auth_payload_draws lib pk st tok au w r w' :
  get_auth_payload lib pk st tok au w = (r, w') ->
  (exists k, pk = JStr k) ->
  exists rest,
    new_events w w'
    = EvEncryptor pk st tok au :: EvRandom (seed_of w) :: EvRandom (iv_of w)
      :: rest.
Proof.
  intros Hrun [k ->]. revert Hrun.
  rewrite get_auth_payload_unfold. cbv zeta.
  destruct (encode_utf8 (rsa_text w st)) as [payload|e].
  2: { intros [= <- <-]. eexists. by apply new_events_app. }
  destruct (RSA_import_key lib (normalize_public_key k)) as [rk|].
  2: { intros [= <- <-]. eexists. apply new_events_app. simpl.
       by rewrite <- !app_assoc. }
  destruct (PKCS1_v1_5_encrypt lib rk payload _) as [[rsa_out|] used].
  2: { intros [= <- <-]. eexists. apply new_events_app. simpl.
       by rewrite <- !app_assoc. }
  destruct (encode_utf8 tok) as [tb|e].
  2: { intros [= <- <-]. eexists. apply new_events_app. simpl.
       by rewrite <- !app_assoc. }
  destruct (quote au) as [q|e]; intros [= <- <-]; eexists;
    apply new_events_app; simpl; by rewrite <- !app_assoc.
Qed.

Lemma pair_err_inv {A} (a b : exn) (w1 w2 : world) :
  (@Err A a, w1) = (Err b, w2) -> a = b /\ w1 = w2.
Proof. intros H. split; congruence. Qed.

Lemma pair_ok_inv {A} (a b : A) (w1 w2 : world) :
  (Ok a, w1) = (Ok b, w2) -> a = b /\ w1 = w2.
Proof. intros H. split; congruence. Qed.

Lemma no_slash_not_in (s : list N) :
  Forall (fun c => c <> 47) s -> ~ In 47 s.
Proof.
  intros H Hin. by apply (proj1 (List.Forall_forall _ _) H 47 Hin).
Qed.

(** C5.  In every call of [get_auth_payload], whatever the 16 bytes of its
    two draws are, the key handed to [AES.new] is the ASCII text of the
    lowercase hex rendering of the first draw, 32 bytes, and the IV is the
    second draw as it is, 16 bytes. *)
Theorem aes_key_and_iv (lib : libraries) (pk : json) (st tok au : list N)
    (w : world) (r : result (list N)) (w' : world)
    (key iv : list Init.Byte.byte)
    (Hrun : get_auth_payload lib pk st tok au w = (r, w'))
    (Hcall : In (EvAesNew key iv) (new_events w w')) :
  (exists rest,
     new_events w w'
     = EvEncryptor pk st tok au :: EvRandom (seed_of w) :: EvRandom (iv_of w)
       :: rest) /\
  List.length (seed_of w) = 16%nat /\
  encode_utf8 (bytes_hex (seed_of w)) = Ok key /\
  key = map octet (bytes_hex (seed_of w)) /\
  List.length key = 32%nat /\
  Forall (fun x => is_lower_hex (Byte.to_N x) = true) key /\
  iv = iv_of w /\
  List.length iv = 16%nat.
Proof.
  destruct (encryptor_event_in lib _ _ _ _ _ _ _ _ Hrun Hcall) as [H|H];
    [done|].
  destruct H as [-> ->].
  split.
  { apply (get_auth_payload_draws lib pk st tok au w r w' Hrun).
    destruct pk as [| | | |k| |]; eauto;
      injection Hrun as _ <-;
      rewrite (new_events_app w _ [EvEncryptor _ st tok au]) in Hcall
        by done;
      by destruct Hcall. }
  split; [apply length_seed_of|]. split; [apply encode_utf8_hex|].
  split; [done|]. split; [apply length_aes_key_of|].
  split; [apply hex_key_lower|]. split; [done|]. apply length_iv_of.
Qed.

Lemma aes_key_and_iv_witness :
  let w := Sample.w0 in
  let key := map octet (lit "000102030405060708090a0b0c0d0e0f") in
  let iv := map octet [16; 17; 18; 19; 20; 21; 22; 23;
                       24; 25; 26; 27; 28; 29; 30; 31] in
  let w' :=
    snd (get_auth_payload Sample.libs (JStr (lit Sample.key_line))
           (lit "abc123") (lit "jwt-token") (lit "user") w) in
  (exists rest,
     new_events w w'
     = EvEncryptor (JStr (lit Sample.key_line)) (lit "abc123")
         (lit "jwt-token") (lit "user")
       :: EvRandom (seed_of w) :: EvRandom (iv_of w) :: rest) /\
  List.length (seed_of w) = 16%nat /\
  encode_utf8 (bytes_hex (seed_of w)) = Ok key /\
  key = map octet (bytes_hex (seed_of w)) /\
  List.length key = 32%nat /\
  Forall (fun x => is_lower_hex (Byte.to_N x) = true) key /\
  iv = iv_of w /\
  List.length iv = 16%nat.
Proof.
  pose (run := get_auth_payload Sample.libs (JStr (lit Sample.key_line))
                 (lit "abc123") (lit "jwt-token") (lit "user") Sample.w0).
  apply (aes_key_and_iv Sample.libs (JStr (lit Sample.key_line))
           (lit "abc123") (lit "jwt-token") (lit "user") Sample.w0
           (fst run) (snd run)).
  - vm_compute. reflexivity.
  - vm_compute. do 5 right. left. reflexivity.
Defined.

(** The shape of a returned command and where its parts come from. *)
Lemma get_auth_payload_returns_inv lib pk st tok au w cmd w' :
  get_auth_payload lib pk st tok au w = (Ok cmd, w') ->
  exists k payload rk rsa_out used token_bytes q_user,
    pk = JStr k /\
    encode_utf8 (rsa_text w st) = Ok payload /\
    RSA_import_key lib (normalize_public_key k) = Some rk /\
    PKCS1_v1_5_encrypt lib rk payload
      (fun i => entropy w (16 + (16 + i))%nat) = (Some rsa_out, used) /\
    encode_utf8 tok = Ok token_bytes /\
    quote au = Ok q_user /\
    cmd = authenticate_prefix ++ q_user ++ slash
          ++ flat_map quote_byte (b64encode rsa_out) ++ slash
          ++ flat_map quote_byte
               (b64encode (AES_CBC_encrypt lib (aes_key_of w) (iv_of w)
                             (pad token_bytes 16))).
Proof.
  destruct pk as [| | | |k| |]; try done.
  rewrite get_auth_payload_unfold. cbv zeta.
  destruct (encode_utf8 (rsa_text w st)) as [payload|e]; [|done].
  destruct (RSA_import_key lib (normalize_public_key k)) as [rk|] eqn:Ek;
    [|done].
  destruct (PKCS1_v1_5_encrypt lib rk payload _) as [[rsa_out|] used] eqn:Er;
    [|done].
  destruct (encode_utf8 tok) as [tb|e] eqn:Et; [|done].
  destruct (quote au) as [q|e] eqn:Eq; [|done].
  intros [<- <-]%pair_ok_inv.
  by eexists k, payload, rk, rsa_out, used, tb, q.
Qed.

(** C6.  A command [get_auth_payload] returns is
    ["secure/authenticate/" u "/" r "/" a], where [u] is the
    percent-encoded [active_user], [r] the percent-encoded base64 of the
    RSA output and [a] the percent-encoded base64 of the AES output;
    splitting what follows the prefix at ['/'] gives exactly these three
    segments, and none of them holds a ['/']. *)
Theorem authenticate_command_segments (lib : libraries) (pk : json)
    (st tok au : list N) (w : world) (cmd : list N) (w' : world)
    (Hrun : get_auth_payload lib pk st tok au w = (Ok cmd, w')) :
  exists (q_user q_rsa q_aes : list N) (rsa_out aes_out : list Init.Byte.byte),
    cmd = authenticate_prefix ++ q_user ++ slash ++ q_rsa ++ slash ++ q_aes /\
    split (drop (List.length authenticate_prefix) cmd) slash
    = [q_user; q_rsa; q_aes] /\
    quote au = Ok q_user /\
    decode_ascii (b64encode rsa_out) = Ok (map Byte.to_N (b64encode rsa_out)) /\
    quote (map Byte.to_N (b64encode rsa_out)) = Ok q_rsa /\
    decode_ascii (b64encode aes_out) = Ok (map Byte.to_N (b64encode aes_out)) /\
    quote (map Byte.to_N (b64encode aes_out)) = Ok q_aes /\
    (exists rk payload used token_bytes,
       RSA_import_key lib
         (match pk with JStr k => normalize_public_key k | _ => [] end)
       = Some rk /\
       PKCS1_v1_5_encrypt lib rk payload
         (fun i => entropy w (16 + (16 + i))%nat) = (Some rsa_out, used) /\
       encode_utf8 tok = Ok token_bytes /\
       aes_out = AES_CBC_encrypt lib (aes_key_of w) (iv_of w)
                   (pad token_bytes 16)) /\
    Forall (fun seg => ~ In 47 seg) [q_user; q_rsa; q_aes].
Proof.
  apply get_auth_payload_returns_inv in Hrun
    as (k & payload & rk & rsa_out & used & tb & q
        & -> & _ & Ek & Er & Et & Eq & ->).
  pose proof (quote_no_slash _ _ Eq) as Hu.
  pose proof (quote_no_slash _ _ (quote_b64 rsa_out)) as Hr.
  pose proof (quote_no_slash _ _
    (quote_b64 (AES_CBC_encrypt lib (aes_key_of w) (iv_of w) (pad tb 16))))
    as Ha.
  eexists q, _, _, rsa_out, _.
  split; [reflexivity|]. split.
  { rewrite drop_app_length. by apply split_three. }
  split; [done|]. split; [apply decode_ascii_b64|].
  split; [apply quote_b64|]. split; [apply decode_ascii_b64|].
  split; [apply quote_b64|]. split; [by eexists rk, payload, used, tb|].
  repeat (apply List.Forall_cons; [by apply no_slash_not_in|]).
  apply List.Forall_nil.
Qed.

Lemma authenticate_command_segments_witness :
  exists (q_user q_rsa q_aes : list N),
    split (drop (List.length authenticate_prefix)
             (lit "secure/authenticate/user%2F1%20x/MzAzMDMwMzEzMDMyMzAzMzMwMzQzMDM1MzAzNjMwMzczMDM4MzAzOTMwNjEzMDYyMzA2MzMwNjQzMDY1MzA2NjoxMDExMTIxMzE0MTUxNjE3MTgxOTFhMWIxYzFkMWUxZjphYmMxMjM%3D/and0LXRva2VuBwcHBwcHBw%3D%3D"))
          slash
    = [q_user; q_rsa; q_aes] /\
    Forall (fun seg => ~ In 47 seg) [q_user; q_rsa; q_aes].
Proof.
  pose (run := get_auth_payload Sample.libs (JStr (lit Sample.key_line))
                 (lit "abc123") (lit "jwt-token") (lit "user/1 x") Sample.w0).
  destruct (authenticate_command_segments Sample.libs
              (JStr (lit Sample.key_line)) (lit "abc123") (lit "jwt-token")
              (lit "user/1 x") Sample.w0
              (lit "secure/authenticate/user%2F1%20x/MzAzMDMwMzEzMDMyMzAzMzMwMzQzMDM1MzAzNjMwMzczMDM4MzAzOTMwNjEzMDYyMzA2MzMwNjQzMDY1MzA2NjoxMDExMTIxMzE0MTUxNjE3MTgxOTFhMWIxYzFkMWUxZjphYmMxMjM%3D/and0LXRva2VuBwcHBwcHBw%3D%3D")
              (snd run))
    as (q_user & q_rsa & q_aes & _ & _ & _ & Hsplit & _ & _ & _ & _ & _ & _ & Hseg).
  - vm_compute. reflexivity.
  - exists q_user, q_rsa, q_aes. split; [exact Hsplit | exact Hseg].
Defined.

(** ** The message loop *)

Section TraceLemmas.

Implicit Types t : list event.

Lemma sent_app t1 t2 : sent (t1 ++ t2) = sent t1 ++ sent t2.
Proof.
  induction t1 as [|e t1 IH]; [done|]. destruct e; simpl; by rewrite ?IH.
Qed.

Lemma encryptor_calls_app t1 t2 :
  encryptor_calls (t1 ++ t2) = (encryptor_calls t1 + encryptor_calls t2)%nat.
Proof. unfold encryptor_calls. by rewrite List.filter_app, length_app. Qed.

Lemma encryptor_event_quiet pk st tok w t :
  Forall (encryptor_event pk st tok w) t ->
  sent t = [] /\ encryptor_calls t = 0%nat.
Proof.
  induction 1 as [|e t He _ [IH1 IH2]]; [done|].
  destruct e; try done.
Qed.

(** One call of the encryptor: one more entry, nothing sent. *)
Lemma get_auth_payload_trace lib pk st tok au w r w' :
  get_auth_payload lib pk st tok au w = (r, w') ->
  sent (trace w') = sent (trace w) /\
  encryptor_calls (trace w') = S (encryptor_calls (trace w)).
Proof.
  intros (new & -> & Hnew)%get_auth_payload_events.
  apply encryptor_event_quiet in Hnew as [Hs Hc].
  rewrite sent_app, encryptor_calls_app.
  change (EvEncryptor pk st tok au :: new)
    with ([EvEncryptor pk st tok au] ++ new).
  rewrite sent_app, encryptor_calls_app, Hs, Hc. simpl.
  rewrite app_nil_r. split; [done | lia].
Qed.

Lemma encode_utf8_error s e : encode_utf8 s = Err e -> e = UnicodeEncodeError.
Proof.
  destruct s as [|c s]; [done|]. simpl.
  destruct (encode_char c); [destruct (encode_utf8 s)|]; congruence.
Qed.

Lemma quote_error s e : quote s = Err e -> e = UnicodeEncodeError.
Proof.
  unfold quote. destruct s as [|c s]; [done|].
  destruct (encode_utf8 (c :: s)) eqn:E; [done|].
  intros [= <-]. by apply encode_utf8_error in E.
Qed.

(** What the encryptor can raise. *)
Lemma get_auth_payload_raises lib pk st tok au w e w' :
  get_auth_payload lib pk st tok au w = (Err e, w') ->
  e = AttributeError \/ e = UnicodeEncodeError \/ raised_by_rsa lib e.
Proof.
  destruct pk as [| | | |k| |]; try (intros [= <- _]; by left).
  rewrite get_auth_payload_unfold. cbv zeta.
  destruct (encode_utf8 (rsa_text w st)) as [payload|e0] eqn:Ep.
  2: { intros [= <- _]. apply encode_utf8_error in Ep. auto. }
  destruct (RSA_import_key lib (normalize_public_key k)) as [rk|] eqn:Ek.
  2: { intros [<- _]%pair_err_inv. right. right. left. eauto. }
  destruct (PKCS1_v1_5_encrypt lib rk payload _) as [[rsa_out|] used] eqn:Er.
  2: { intros [<- _]%pair_err_inv. right. right. right.
       eexists rk, payload, _. by rewrite Er. }
  destruct (encode_utf8 tok) as [tb|e0] eqn:Et.
  2: { intros [= <- _]. apply encode_utf8_error in Et. auto. }
  destruct (quote au) as [q|e0] eqn:Eq; [done|].
  intros [= <- _]. apply quote_error in Eq. auto.
Qed.

Lemma get_auth_payload_prefix lib pk st tok au w cmd w' :
  get_auth_payload lib pk st tok au w = (Ok cmd, w') ->
  startswith cmd authenticate_prefix = true.
Proof.
  intros (k & payload & rk & rsa_out & used & tb & q & _ & _ & _ & _ & _ & _
          & ->)%get_auth_payload_returns_inv.
  apply startswith_app.
Qed.

End TraceLemmas.

Section Steps.

Variable lib : libraries.
Variable conn : connection.
Variables token active_user : list N.

Abbreviation body := (loop_body lib conn token active_user).
Abbreviation loop := (message_loop lib conn token active_user).
Abbreviation prefix_run := (run_prefix lib conn token active_user).

Lemma split_marker_second m :
  split m token_marker !! 1%nat
  = match after_first m token_marker with
    | Some rest => Some (before_first rest token_marker)
    | None => None
    end.
Proof. exact (split_second 83 (tl token_marker) m). Qed.

Lemma on_hello_run l m w :
  on_hello conn l m w
  = (if send_fails conn (List.length (sent (trace w)))
     then Err ConnectionClosed
     else Ok (Continue (Locals (token_after_hello l m) (auth_result l))),
     World (entropy w) (trace w ++ [EvSend getkey_command])).
Proof.
  unfold on_hello, token_after_hello, getkey, send, bind, ret, raise.
  rewrite split_marker_second.
  destruct (contains m token_marker) eqn:E.
  - apply contains_after_first in E as [rest ->].
    by destruct (send_fails conn _).
  - rewrite (after_first_absent _ _ E). destruct l.
    by destruct (send_fails conn _).
Qed.

Lemma hello_step l m w :
  startswith m hello_prefix = true ->
  body l (Text m) w = on_hello conn l m w.
Proof. intros H. unfold loop_body. by rewrite H. Qed.

Lemma reply_step l m w :
  startswith m hello_prefix = false ->
  body l (Text m) w
  = match json_loads lib m with
    | None => (Err (json_loads_error lib m), w)
    | Some (JDict d) =>
        if truthy (dict_get d getkey_result)
        then on_getkey_result lib conn token active_user l d w
        else on_other_dict lib l d w
    | Some _ => (Ok (Continue l), w)
    end.
Proof.
  intros H. unfold loop_body. rewrite H.
  destruct (json_loads lib m) as [[| | | | | |d]|]; try done.
  by destruct (truthy _).
Qed.

Lemma on_other_dict_run l d w :
  on_other_dict lib l d w
  = (let reply := dict_get d authenticate_result in
     if truthy reply then
       if eq_str reply authentication_successful then Ok ReturnTrue
       else Err (Exception (audio_server_error ++ format_value lib reply))
     else Err (Exception (audio_server_error
                          ++ format_value lib (or_unknown_error (auth_result l)))),
     w).
Proof.
  unfold on_other_dict, ret, raise. cbv zeta.
  destruct (truthy (dict_get d authenticate_result)) eqn:E; [|done].
  destruct (eq_str _ _); [done|]. simpl. by rewrite E.
Qed.

Lemma on_getkey_result_missing l d w :
  token_missing (session_token l) = true ->
  on_getkey_result lib conn token active_user l d w
  = (Err (Exception no_session_token), w).
Proof. unfold on_getkey_result. by destruct (session_token l) as [[|]|]. Qed.

Lemma on_getkey_result_run l d w tk :
  session_token l = Some tk -> tk <> [] ->
  on_getkey_result lib conn token active_user l d w
  = match subscript0 (dict_get d getkey_result) with
    | Err e => (Err e, w)
    | Ok first =>
        match method_get first pubkey with
        | Err e => (Err e, w)
        | Ok key =>
            match get_auth_payload lib key tk token active_user w with
            | (Err e, w1) => (Err e, w1)
            | (Ok payload, w1) =>
                (if send_fails conn (List.length (sent (trace w1)))
                 then Err ConnectionClosed
                 else Ok (Continue l),
                 World (entropy w1) (trace w1 ++ [EvSend payload]))
            end
        end
    end.
Proof.
  intros Ht Hne. unfold on_getkey_result. rewrite Ht.
  destruct tk as [|c tk]; [done|].
  unfold bind, lift, send, ret.
  destruct (subscript0 _) as [first|]; [|done].
  destruct (method_get first pubkey) as [key|]; [|done].
  destruct (get_auth_payload lib key (c :: tk) token active_user w)
    as [[payload|e] w1]; [|done].
  by destruct (send_fails conn _).
Qed.

(** A step that goes on to the next message keeps [auth_result], and
    changes the session token only on a greeting. *)
Lemma continue_step l msg w l' w' :
  body l msg w = (Ok (Continue l'), w') ->
  auth_result l' = auth_result l /\
  (session_token l' = session_token l \/
   exists m, msg = Text m /\ startswith m hello_prefix = true /\
             contains m token_marker = true).
Proof.
  destruct msg as [m|b]; [|done].
  destruct (startswith m hello_prefix) eqn:Eh.
  - rewrite hello_step, on_hello_run by done.
    destruct (send_fails conn _); [done|]. intros [= <- _].
    split; [done|]. unfold token_after_hello. simpl.
    destruct (after_first m token_marker) as [rest|] eqn:Ea; [|by left].
    right. exists m. split; [done|]. split; [done|].
    apply contains_after_first. eauto.
  - rewrite reply_step by done.
    destruct (json_loads lib m) as [[| | | | | |d]|];
      try (intros [= <- _]; by auto); try done.
    destruct (truthy (dict_get d getkey_result)).
    + destruct (token_missing (session_token l)) eqn:Et.
      * by rewrite on_getkey_result_missing.
      * destruct (session_token l) as [[|c tk]|] eqn:Es; try done.
        rewrite (on_getkey_result_run l d w (c :: tk)) by done.
        destruct (subscript0 _); [|done].
        destruct (method_get _ _); [|done].
        destruct (get_auth_payload _ _ _ _ _ _) as [[payload|e] w1]; [|done].
        destruct (send_fails conn _); [done|].
        intros [= <- _]. rewrite Es. auto.
    + rewrite on_other_dict_run. cbv zeta.
      destruct (truthy (dict_get d authenticate_result));
        [destruct (eq_str _ _)|]; done.
Qed.

Lemma loop_cons msg rest l w :
  loop (msg :: rest) l w
  = match body l msg w with
    | (Ok (Continue l'), w') => loop rest l' w'
    | (Ok ReturnTrue, w') => (ReturnedTrue, w')
    | (Err e, w') => (Raised e, w')
    end.
Proof. done. Qed.

Lemma loop_app pre rest l w l' w' :
  prefix_run pre l w = Some (l', w') ->
  loop (pre ++ rest) l w = loop rest l' w'.
Proof.
  revert l w. induction pre as [|msg pre IH]; intros l w.
  - by intros [= -> ->].
  - simpl. destruct (body l msg w) as [[[l1|]|e] w1]; try done.
    apply IH.
Qed.

Lemma prefix_run_app pre rest l w :
  prefix_run (pre ++ rest) l w
  = match prefix_run pre l w with
    | Some (l', w') => prefix_run rest l' w'
    | None => None
    end.
Proof.
  revert l w. induction pre as [|msg pre IH]; intros l w; [done|].
  simpl. destruct (body l msg w) as [[[l1|]|e] w1]; try done.
Qed.

(** No message sets [auth_result] and lets the loop go on. *)
Lemma prefix_run_auth_result pre l w l' w' :
  prefix_run pre l w = Some (l', w') -> auth_result l' = auth_result l.
Proof.
  revert l w. induction pre as [|msg pre IH]; intros l w.
  - by intros [= -> _].
  - simpl. destruct (body l msg w) as [[[l1|]|e] w1] eqn:E; try done.
    intros H. apply IH in H. apply continue_step in E as [E _]. congruence.
Qed.

End Steps.

(** C9.  A text message that does not start with ["LWSS"] and decodes to a
    JSON value that is not a map is passed over: the iteration raises
    nothing, leaves the world as it was (nothing is sent), leaves the
    locals as they were (the session token too), and the loop goes on with
    the next message. *)
Theorem non_map_json_is_skipped (lib : libraries) (conn : connection)
    (tok au : list N) (l : locals) (w : world) (m : list N) (v : json)
    (rest : list message)
    (Hm : startswith m hello_prefix = false)
    (Hj : json_loads lib m = Some v)
    (Hv : forall d, v <> JDict d) :
  loop_body lib conn tok au l (Text m) w = (Ok (Continue l), w) /\
  message_loop lib conn tok au (Text m :: rest) l w
  = message_loop lib conn tok au rest l w.
Proof.
  assert (loop_body lib conn tok au l (Text m) w = (Ok (Continue l), w))
    as Hstep.
  { rewrite reply_step, Hj by done. destruct v; try done. by destruct (Hv d). }
  split; [done|]. by rewrite loop_cons, Hstep.
Qed.

Lemma non_map_json_is_skipped_witness :
  let conn := Sample.peer [] ClosedOK in
  let l := Locals (Some (lit "abc123")) None in
  let rest := [Text (Sample.text Sample.success_reply)] in
  loop_body Sample.libs conn (lit "jwt") (lit "user") l (Text (lit "[1, 2]"))
    Sample.w0 = (Ok (Continue l), Sample.w0) /\
  message_loop Sample.libs conn (lit "jwt") (lit "user")
    (Text (lit "[1, 2]") :: rest) l Sample.w0
  = message_loop Sample.libs conn (lit "jwt") (lit "user") rest l Sample.w0.
Proof.
  apply (non_map_json_is_skipped Sample.libs (Sample.peer [] ClosedOK)
           (lit "jwt") (lit "user") (Locals (Some (lit "abc123")) None)
           Sample.w0 (lit "[1, 2]") (JList [JInt 1; JInt 2])).
  - vm_compute. reflexivity.
  - vm_compute. reflexivity.
  - intros d H. discriminate H.
Defined.

(** C10 (as stated, refuted).  For a greeting with two markers the token
    kept is the text between them, ["a"], and not the text that follows
    the first marker, ["a Session-Token: b"]. *)
Lemma hello_token_stops_at_next_marker :
  let m := lit "LWSS Session-Token: a Session-Token: b" in
  startswith m hello_prefix = true /\
  contains m token_marker = true /\
  after_first m token_marker = Some (lit " a Session-Token: b") /\
  strip (lit " a Session-Token: b") = lit "a Session-Token: b" /\
  loop_body Sample.libs (Sample.peer [] ClosedOK) (lit "jwt") (lit "user")
    (Locals None None) (Text m) Sample.w0
  = (Ok (Continue (Locals (Some (lit "a")) None)),
     World Sample.counter [EvSend getkey_command]) /\
  lit "a" <> lit "a Session-Token: b".
Proof.
  repeat split; try (vm_compute; reflexivity).
  intros H. vm_compute in H. discriminate H.
Qed.

(** C10 (amended).  Every text message that starts with ["LWSS"], in any
    state of the exchange, has ["audio/cfg/getkey/full"] handed to
    [connection.send]; unless that call fails the loop goes on, and when
    the message holds the marker ["Session-Token:"] the session token is
    replaced by the stripped text between the first occurrence of the
    marker and the next one (the end of the message if there is no other):
    the stripped text after the first occurrence only when the marker
    occurs once. *)
Theorem hello_requests_key (lib : libraries) (conn : connection)
    (tok au : list N) (l : locals) (w : world) (m : list N)
    (Hm : startswith m hello_prefix = true) :
  exists r,
    loop_body lib conn tok au l (Text m) w
    = (r, World (entropy w) (trace w ++ [EvSend getkey_command])) /\
    sent (trace w ++ [EvSend getkey_command])
    = sent (trace w) ++ [getkey_command] /\
    r = (if send_fails conn (List.length (sent (trace w)))
         then Err ConnectionClosed
         else Ok (Continue (Locals (token_after_hello l m) (auth_result l)))) /\
    (contains m token_marker = false ->
     token_after_hello l m = session_token l) /\
    (forall rest,
       after_first m token_marker = Some rest ->
       contains m token_marker = true /\
       token_after_hello l m = Some (strip (before_first rest token_marker)) /\
       (contains rest token_marker = false ->
        token_after_hello l m = Some (strip rest))).
Proof.
  eexists. split; [by rewrite hello_step, on_hello_run|].
  split; [by rewrite sent_app|]. split; [done|]. split.
  - intros H. unfold token_after_hello. by rewrite after_first_absent.
  - intros rest H. unfold token_after_hello. rewrite H.
    split; [apply contains_after_first; eauto|]. split; [done|].
    intros Hr. by rewrite before_first_absent.
Qed.

Lemma hello_requests_key_witness :
  exists r,
    loop_body Sample.libs (Sample.peer [] ClosedOK) (lit "jwt") (lit "user")
      (Locals None None) (Text Sample.greeting) Sample.w0
    = (r, World Sample.counter [EvSend getkey_command]) /\
    r = Ok (Continue (Locals (Some (lit "abc123")) None)).
Proof.
  destruct (hello_requests_key Sample.libs (Sample.peer [] ClosedOK)
              (lit "jwt") (lit "user") (Locals None None) Sample.w0
              Sample.greeting)
    as (r & Hstep & _ & Hr & _).
  - vm_compute. reflexivity.
  - exists r. split; [exact Hstep|]. rewrite Hr. vm_compute. reflexivity.
Defined.

Section NoToken.

Variable lib : libraries.
Variable conn : connection.
Variables token active_user : list N.

(** Without a session token no step that goes on enters the encryptor. *)
Lemma continue_step_no_token l msg w l' w' :
  loop_body lib conn token active_user l msg w = (Ok (Continue l'), w') ->
  token_missing (session_token l) = true ->
  encryptor_calls (trace w') = encryptor_calls (trace w).
Proof.
  intros Hstep Ht. destruct msg as [m|b]; [|done]. revert Hstep.
  destruct (startswith m hello_prefix) eqn:Eh.
  - rewrite hello_step, on_hello_run by done.
    destruct (send_fails conn _); [done|]. intros [= _ <-]. simpl.
    rewrite encryptor_calls_app.
    change (encryptor_calls [EvSend getkey_command]) with 0%nat. lia.
  - rewrite reply_step by done.
    destruct (json_loads lib m) as [[| | | | | |d]|];
      try (by intros [= _ <-]); try done.
    destruct (truthy (dict_get d getkey_result)).
    + by rewrite on_getkey_result_missing.
    + rewrite on_other_dict_run. cbv zeta.
      destruct (truthy (dict_get d authenticate_result));
        [destruct (eq_str _ _)|]; done.
Qed.

(** As long as no greeting carries the marker, the token stays absent and
    the encryptor unused. *)
Lemma prefix_run_no_token pre l w l' w' :
  run_prefix lib conn token active_user pre l w = Some (l', w') ->
  Forall (fun msg => captures_token msg = false) pre ->
  session_token l = None ->
  session_token l' = None /\
  encryptor_calls (trace w') = encryptor_calls (trace w).
Proof.
  revert l w. induction pre as [|msg pre IH]; intros l w.
  - by intros [= -> ->].
  - simpl.
    destruct (loop_body lib conn token active_user l msg w)
      as [[[l1|]|e] w1] eqn:E; try done.
    intros Hrun [Hmsg Hpre]%Forall_cons Hl.
    pose proof (continue_step_no_token _ _ _ _ _ E) as Hc.
    rewrite Hl in Hc. specialize (Hc eq_refl).
    apply continue_step in E as [_ [Hs|(m & -> & H1 & H2)]].
    + destruct (IH l1 w1 Hrun Hpre) as [? ?]; [congruence|].
      split; [done | congruence].
    + simpl in Hmsg. by rewrite H1, H2 in Hmsg.
Qed.

End NoToken.

(** C8.  When a key-disclosure reply arrives and no greeting before it
    carried the session-token marker, the attempt ends there with the
    exception "No session token captured; cannot authenticate.": the world
    is the one in which the reply arrived, so nothing more was sent, and
    [get_auth_payload] has not been entered since the attempt began. *)
Theorem key_reply_without_session_token (lib : libraries) (conn : connection)
    (tok au : list N) (w0 : world) (pre : list message) (m : list N)
    (rest : list message) (d : gmap (list N) json) (l : locals) (w : world)
    (Hin : inbound conn = pre ++ Text m :: rest)
    (Hpre : run_prefix lib conn tok au pre (Locals None None) w0 = Some (l, w))
    (Hnone : Forall (fun msg => captures_token msg = false) pre)
    (Hm : startswith m hello_prefix = false)
    (Hj : json_loads lib m = Some (JDict d))
    (Hk : truthy (dict_get d getkey_result) = true) :
  authenticate_with_audio_server lib conn tok au w0
  = (Raised (Exception no_session_token), w) /\
  loop_body lib conn tok au l (Text m) w
  = (Err (Exception no_session_token), w) /\
  session_token l = None /\
  encryptor_calls (trace w) = encryptor_calls (trace w0).
Proof.
  destruct (prefix_run_no_token lib conn tok au pre _ _ _ _ Hpre Hnone eq_refl)
    as [Hl Hc].
  assert (loop_body lib conn tok au l (Text m) w
          = (Err (Exception no_session_token), w)) as Hstep.
  { rewrite reply_step, Hj, Hk by done.
    apply on_getkey_result_missing. by rewrite Hl. }
  split; [|done].
  unfold authenticate_with_audio_server. rewrite Hin.
  rewrite (loop_app lib conn tok au pre _ _ _ _ _ Hpre).
  by rewrite loop_cons, Hstep.
Qed.

Lemma key_reply_without_session_token_witness :
  let conn :=
    Sample.peer [Text (lit "LWSS V 16.1.11.06 | ~API:1.6~");
                 Text (Sample.text Sample.key_reply)] ClosedOK in
  let w := World Sample.counter [EvSend getkey_command] in
  authenticate_with_audio_server Sample.libs conn (lit "jwt") (lit "user")
    Sample.w0
  = (Raised (Exception no_session_token), w) /\
  loop_body Sample.libs conn (lit "jwt") (lit "user") (Locals None None)
    (Text (Sample.text Sample.key_reply)) w
  = (Err (Exception no_session_token), w) /\
  session_token (Locals None None) = None /\
  encryptor_calls (trace w) = encryptor_calls (trace Sample.w0).
Proof.
  apply (key_reply_without_session_token Sample.libs
           (Sample.peer [Text (lit "LWSS V 16.1.11.06 | ~API:1.6~");
                         Text (Sample.text Sample.key_reply)] ClosedOK)
           (lit "jwt") (lit "user") Sample.w0
           [Text (lit "LWSS V 16.1.11.06 | ~API:1.6~")]
           (Sample.text Sample.key_reply) []
           (list_to_map
              [(lit "getkey_result",
                JList [Sample.dict [("pubkey"%string,
                                     JStr (lit Sample.key_line))]])])).
  - reflexivity.
  - vm_compute. reflexivity.
  - repeat constructor.
  - vm_compute. reflexivity.
  - vm_compute. reflexivity.
  - vm_compute. reflexivity.
Defined.

Section Outcomes.

Variable lib : libraries.
Variable conn : connection.
Variables token active_user : list N.

Lemma eq_str_true v s : eq_str v s = true -> v = JStr s.
Proof.
  destruct v; try done. simpl. intros H.
  apply bool_decide_eq_true in H. by subst.
Qed.

Lemma subscript0_truthy v e :
  truthy v = true -> subscript0 v = Err e -> e = TypeError \/ e = KeyError.
Proof.
  destruct v as [| | | |[|c s]|[|x l]|d]; simpl; try done;
    intros _ [= <-]; auto.
Qed.

Lemma method_get_error v k e : method_get v k = Err e -> e = AttributeError.
Proof. destruct v; simpl; congruence. Qed.

Lemma propagated_own e :
  In e [TypeError; AttributeError; KeyError; UnicodeEncodeError;
        ConnectionClosed; ConnectionClosedError] ->
  propagated lib e.
Proof. by left. Qed.

(** How an iteration can raise. *)
Lemma step_raises l msg w e w' :
  loop_body lib conn token active_user l msg w = (Err e, w') ->
  e = Exception no_session_token \/
  (exists text, e = Exception (audio_server_error ++ text)) \/
  propagated lib e.
Proof.
  destruct msg as [m|b].
  2: { intros [= <- _]. right. right. apply propagated_own. simpl. tauto. }
  destruct (startswith m hello_prefix) eqn:Eh.
  - rewrite hello_step, on_hello_run by done.
    destruct (send_fails conn _); [|done]. intros [= <- _].
    right. right. apply propagated_own. simpl. tauto.
  - rewrite reply_step by done.
    destruct (json_loads lib m) as [[| | | | | |d]|] eqn:Ej; try done.
    2: { intros [<- _]%pair_err_inv. right. right. right. left. eauto. }
    destruct (truthy (dict_get d getkey_result)) eqn:Ek.
    + destruct (token_missing (session_token l)) eqn:Et.
      { rewrite on_getkey_result_missing by done. intros [= <- _]. by left. }
      destruct (session_token l) as [[|c tk]|] eqn:Es; try done.
      rewrite (on_getkey_result_run lib conn token active_user l d w (c :: tk))
        by done.
      destruct (subscript0 _) as [first|e0] eqn:E0.
      2: { intros [= <- _]. right. right. apply propagated_own.
           destruct (subscript0_truthy _ _ Ek E0) as [-> | ->]; simpl; tauto. }
      destruct (method_get first pubkey) as [key|e0] eqn:E1.
      2: { intros [= <- _]. apply method_get_error in E1 as ->.
           right. right. apply propagated_own. simpl. tauto. }
      destruct (get_auth_payload _ _ _ _ _ _) as [[payload|e0] w1] eqn:E2.
      * destruct (send_fails conn _); [|done].
        intros [= <- _]. right. right. apply propagated_own. simpl. tauto.
      * intros [= <- _]. right. right.
        destruct (get_auth_payload_raises _ _ _ _ _ _ _ _ E2)
          as [-> | [-> | Hr]].
        -- apply propagated_own. simpl. tauto.
        -- apply propagated_own. simpl. tauto.
        -- by right; right.
    + rewrite on_other_dict_run. cbv zeta.
      destruct (truthy (dict_get d authenticate_result));
        [destruct (eq_str _ _)|]; try done;
        intros [<- _]%pair_err_inv; right; left; eauto.
Qed.

(** How an iteration can return [True]. *)
Lemma step_returns l msg w w' :
  loop_body lib conn token active_user l msg w = (Ok ReturnTrue, w') ->
  exists m d,
    msg = Text m /\ startswith m hello_prefix = false /\
    json_loads lib m = Some (JDict d) /\
    truthy (dict_get d getkey_result) = false /\
    dict_get d authenticate_result = JStr authentication_successful /\
    w' = w.
Proof.
  destruct msg as [m|b]; [|done].
  destruct (startswith m hello_prefix) eqn:Eh.
  - rewrite hello_step, on_hello_run by done.
    by destruct (send_fails conn _).
  - rewrite reply_step by done.
    destruct (json_loads lib m) as [[| | | | | |d]|] eqn:Ej; try done.
    destruct (truthy (dict_get d getkey_result)) eqn:Ek.
    + destruct (token_missing (session_token l)) eqn:Et.
      { by rewrite on_getkey_result_missing. }
      destruct (session_token l) as [[|c tk]|] eqn:Es; try done.
      rewrite (on_getkey_result_run lib conn token active_user l d w (c :: tk))
        by done.
      destruct (subscript0 _); [|done]. destruct (method_get _ _); [|done].
      destruct (get_auth_payload _ _ _ _ _ _) as [[payload|e0] w1]; [|done].
      by destruct (send_fails conn _).
    + rewrite on_other_dict_run. cbv zeta.
      destruct (truthy (dict_get d authenticate_result)); [|done].
      destruct (eq_str _ _) eqn:Ee; [|done].
      intros [= <-]. apply eq_str_true in Ee. by exists m, d.
Qed.

(** The ways the loop can end. *)
Lemma loop_outcomes msgs l w o w' :
  message_loop lib conn token active_user msgs l w = (o, w') ->
  (o = ReturnedTrue /\
   exists pre m rest d,
     msgs = pre ++ Text m :: rest /\
     startswith m hello_prefix = false /\
     json_loads lib m = Some (JDict d) /\
     truthy (dict_get d getkey_result) = false /\
     dict_get d authenticate_result = JStr authentication_successful) \/
  (exists e,
     o = Raised e /\
     (e = Exception no_session_token \/
      (exists text, e = Exception (audio_server_error ++ text)) \/
      propagated lib e)) \/
  (o = ReturnedNone /\ closing conn = ClosedOK /\
   exists l', run_prefix lib conn token active_user msgs l w = Some (l', w')) \/
  (o = Pending /\ closing conn = StaysOpen /\
   exists l', run_prefix lib conn token active_user msgs l w = Some (l', w')).
Proof.
  revert l w. induction msgs as [|msg msgs IH]; intros l w.
  - simpl. destruct (closing conn) eqn:Ec; intros [= <- <-].
    + right. right. left. split; [done|]. split; [done|]. by exists l.
    + right. left. eexists. split; [done|]. right. right.
      apply propagated_own. simpl. tauto.
    + right. right. right. split; [done|]. split; [done|]. by exists l.
  - rewrite loop_cons. simpl.
    destruct (loop_body lib conn token active_user l msg w)
      as [[[l1|]|e] w1] eqn:E.
    + intros H. destruct (IH _ _ H)
        as [[-> (pre & m & rest & d & -> & H')]|[H'|H']].
      * left. split; [done|]. by exists (msg :: pre), m, rest, d.
      * right. by left.
      * right. by right.
    + intros [= <- <-]. left. split; [done|].
      apply step_returns in E as (m & d & -> & ? & ? & ? & ? & _).
      by exists [], m, msgs, d.
    + intros [= <- <-]. right. left. exists e. split; [done|].
      by apply step_raises in E.
Qed.

End Outcomes.

(** C2 (as stated, refuted).  The peer sends its greeting and closes the
    connection normally: the key request goes out, the loop ends, and the
    function returns without a result; it neither returns [True] nor
    raises. *)
Lemma stream_end_returns_none :
  let conn := Sample.peer [Text Sample.greeting] ClosedOK in
  let run :=
    authenticate_with_audio_server Sample.libs conn (lit "jwt") (lit "user")
      Sample.w0 in
  run = (ReturnedNone, World Sample.counter [EvSend getkey_command]) /\
  fst run <> ReturnedTrue /\
  (forall e, fst run <> Raised e).
Proof.
  split; [vm_compute; reflexivity|].
  split; [|intros e]; intros H; vm_compute in H; discriminate H.
Qed.

(** C2 (amended).  Every attempt ends in one of these ways.  The
    function returns [True], on a reply whose [authenticate_result] is the
    success text.  Or it raises: the plain [Exception] with the text
    "No session token captured; cannot authenticate." or
    "Audio server error: ..." (there are no typed error kinds), or an
    exception let through unchanged, namely one of its own value accesses
    and encodings, one of the connection, or whatever the JSON decoder,
    the key import or the RSA encryption raised on the input they
    refused.  Or the connection closes normally with every message
    consumed and the function returns [None].  Or the connection stays
    open with every message consumed and the attempt is still waiting. *)
Theorem authenticate_outcomes (lib : libraries) (conn : connection)
    (tok au : list N) (w : world) :
  exists o w',
    authenticate_with_audio_server lib conn tok au w = (o, w') /\
    ((o = ReturnedTrue /\
      exists pre m rest d,
        inbound conn = pre ++ Text m :: rest /\
        startswith m hello_prefix = false /\
        json_loads lib m = Some (JDict d) /\
        truthy (dict_get d getkey_result) = false /\
        dict_get d authenticate_result = JStr authentication_successful) \/
     (exists e,
        o = Raised e /\
        (e = Exception no_session_token \/
         (exists text, e = Exception (audio_server_error ++ text)) \/
         propagated lib e)) \/
     (o = ReturnedNone /\ closing conn = ClosedOK /\
      exists l',
        run_prefix lib conn tok au (inbound conn) (Locals None None) w
        = Some (l', w')) \/
     (o = Pending /\ closing conn = StaysOpen /\
      exists l',
        run_prefix lib conn tok au (inbound conn) (Locals None None) w
        = Some (l', w'))).
Proof.
  destruct (authenticate_with_audio_server lib conn tok au w) as [o w'] eqn:E.
  exists o, w'. split; [reflexivity|].
  exact (loop_outcomes lib conn tok au (inbound conn) _ _ _ _ E).
Qed.

(** C7 (as stated, refuted).  After the greeting and the key disclosure
    the authenticate command is out and the result is awaited; a reply
    arrives whose [authenticate_result] is the success text and which also
    carries a key disclosure.  The key branch comes first: the step does
    not report success, the encryptor runs again, a second authenticate
    command is sent and the loop goes on; the stream then ends and the
    function returns [None]. *)
Lemma success_text_with_key_disclosure :
  let conn :=
    Sample.peer [Text Sample.greeting; Text (Sample.text Sample.key_reply);
                 Text (Sample.text Sample.both_reply)] ClosedOK in
  let run :=
    authenticate_with_audio_server Sample.libs conn (lit "jwt-token")
      (lit "user") Sample.w0 in
  match run_prefix Sample.libs conn (lit "jwt-token") (lit "user")
          [Text Sample.greeting; Text (Sample.text Sample.key_reply)]
          (Locals None None) Sample.w0 with
  | Some (l1, w1) =>
      authenticate_sent w1 /\
      match loop_body Sample.libs conn (lit "jwt-token") (lit "user") l1
              (Text (Sample.text Sample.both_reply)) w1 with
      | (Ok (Continue _), w2) =>
          encryptor_calls (trace w2) = 2%nat /\
          List.length (sent (trace w2)) = 3%nat
      | _ => False
      end
  | None => False
  end /\
  match json_loads Sample.libs (Sample.text Sample.both_reply) with
  | Some (JDict d) =>
      dict_get d authenticate_result = JStr authentication_successful
  | _ => False
  end /\
  fst run = ReturnedNone /\
  fst run <> ReturnedTrue.
Proof.
  split.
  { vm_compute. split; [|split; reflexivity].
    eexists. split; [right; left; reflexivity | reflexivity]. }
  split; [vm_compute; reflexivity|].
  split; [vm_compute; reflexivity|].
  intros H; vm_compute in H; discriminate H.
Qed.

(** A reply that is a map without a key disclosure decides the attempt:
    the success text returns [True], anything else raises. *)
Lemma other_dict_decides (lib : libraries) (conn : connection)
    (tok au : list N) (w0 : world) (pre : list message) (m : list N)
    (rest : list message) (d : gmap (list N) json) (l : locals) (w : world)
    (Hin : inbound conn = pre ++ Text m :: rest)
    (Hpre : run_prefix lib conn tok au pre (Locals None None) w0 = Some (l, w))
    (Hm : startswith m hello_prefix = false)
    (Hj : json_loads lib m = Some (JDict d))
    (Hk : truthy (dict_get d getkey_result) = false) :
  let reply := dict_get d authenticate_result in
  let run := authenticate_with_audio_server lib conn tok au w0 in
  (reply = JStr authentication_successful -> run = (ReturnedTrue, w)) /\
  (truthy reply = true -> reply <> JStr authentication_successful ->
   run = (Raised (Exception (audio_server_error ++ format_value lib reply)),
          w)) /\
  (forall text, reply = JStr text -> text <> [] ->
                text <> authentication_successful ->
   run = (Raised (Exception (audio_server_error ++ text)), w)) /\
  (truthy reply = false ->
   run = (Raised (Exception (audio_server_error ++ unknown_error)), w)).
Proof.
  intros reply run.
  assert (run = match on_other_dict lib l d w with
                | (Ok (Continue l'), w') =>
                    message_loop lib conn tok au rest l' w'
                | (Ok ReturnTrue, w') => (ReturnedTrue, w')
                | (Err e, w') => (Raised e, w')
                end) as Hrun.
  { unfold run, authenticate_with_audio_server. rewrite Hin.
    rewrite (loop_app lib conn tok au pre _ _ _ _ _ Hpre).
    by rewrite loop_cons, reply_step, Hj, Hk. }
  rewrite on_other_dict_run in Hrun. cbv zeta in Hrun. fold reply in Hrun.
  pose proof (prefix_run_auth_result lib conn tok au pre _ _ _ _ Hpre) as Ha.
  simpl in Ha.
  assert (forall text, reply = JStr text -> text <> [] ->
            text <> authentication_successful ->
            run = (Raised (Exception (audio_server_error ++ text)), w))
    as Htext.
  { intros text Hr Hne Hns. rewrite Hrun, Hr.
    assert (truthy (JStr text) = true) as -> by (by destruct text).
    assert (eq_str (JStr text) authentication_successful = false) as ->
      by (by apply bool_decide_eq_false_2).
    reflexivity. }
  split; [|split; [|split]].
  - intros Hr. rewrite Hrun, Hr.
    change (truthy (JStr authentication_successful)) with true.
    assert (eq_str (JStr authentication_successful) authentication_successful
            = true) as -> by (by apply bool_decide_eq_true_2).
    reflexivity.
  - intros Ht Hns. rewrite Hrun, Ht.
    destruct (eq_str reply authentication_successful) eqn:Ee; [|done].
    by apply eq_str_true in Ee.
  - exact Htext.
  - intros Ht. by rewrite Hrun, Ht, Ha.
Qed.

(** C7 (amended).  When the result is awaited (the authenticate command
    has been sent), for a reply that is a map and carries no key
    disclosure (a truthy [getkey_result] is handled first, whatever else
    the reply holds): if its [authenticate_result] is the text
    "authentication successful" the function returns [True]; for any other
    truthy value it raises the authentication failure, an [Exception]
    whose text is "Audio server error: " followed by that value as text;
    and when the value is missing or falsy the text is
    "Audio server error: unknown error".  Nothing is sent and the world is
    the one in which the reply arrived. *)
Theorem authentication_reply (lib : libraries) (conn : connection)
    (tok au : list N) (w0 : world) (pre : list message) (m : list N)
    (rest : list message) (d : gmap (list N) json) (l : locals) (w : world)
    (Hin : inbound conn = pre ++ Text m :: rest)
    (Hpre : run_prefix lib conn tok au pre (Locals None None) w0 = Some (l, w))
    (Hsent : authenticate_sent w)
    (Hm : startswith m hello_prefix = false)
    (Hj : json_loads lib m = Some (JDict d))
    (Hk : truthy (dict_get d getkey_result) = false) :
  let reply := dict_get d authenticate_result in
  let run := authenticate_with_audio_server lib conn tok au w0 in
  (reply = JStr authentication_successful -> run = (ReturnedTrue, w)) /\
  (truthy reply = true -> reply <> JStr authentication_successful ->
   run = (Raised (Exception (audio_server_error ++ format_value lib reply)),
          w)) /\
  (forall text, reply = JStr text -> text <> [] ->
                text <> authentication_successful ->
   run = (Raised (Exception (audio_server_error ++ text)), w)) /\
  (truthy reply = false ->
   run = (Raised (Exception (audio_server_error ++ unknown_error)), w)).
Proof.
  exact (other_dict_decides lib conn tok au w0 pre m rest d l w
           Hin Hpre Hm Hj Hk).
Qed.

Lemma authentication_reply_witness :
  let conn :=
    Sample.peer [Text Sample.greeting; Text (Sample.text Sample.key_reply);
                 Text (Sample.text Sample.rejected_reply)] ClosedOK in
  let run :=
    authenticate_with_audio_server Sample.libs conn (lit "jwt-token")
      (lit "user") Sample.w0 in
  let w :=
    snd (authenticate_with_audio_server Sample.libs
           (Sample.peer [Text Sample.greeting;
                         Text (Sample.text Sample.key_reply)] ClosedOK)
           (lit "jwt-token") (lit "user") Sample.w0) in
  run = (Raised (Exception (lit "Audio server error: invalid credentials")), w).
Proof.
  pose (conn := Sample.peer [Text Sample.greeting;
                             Text (Sample.text Sample.key_reply);
                             Text (Sample.text Sample.rejected_reply)]
                  ClosedOK).
  pose (w := snd (authenticate_with_audio_server Sample.libs
                    (Sample.peer [Text Sample.greeting;
                                  Text (Sample.text Sample.key_reply)] ClosedOK)
                    (lit "jwt-token") (lit "user") Sample.w0)).
  destruct (authentication_reply Sample.libs conn (lit "jwt-token")
              (lit "user") Sample.w0
              [Text Sample.greeting; Text (Sample.text Sample.key_reply)]
              (Sample.text Sample.rejected_reply) []
              (list_to_map [(lit "authenticate_result",
                             JStr (lit "invalid credentials"))])
              (Locals (Some (lit "abc123")) None) w)
    as (_ & _ & Htext & _).
  - reflexivity.
  - vm_compute. reflexivity.
  - eexists. split; [vm_compute; right; left; reflexivity|].
    vm_compute. reflexivity.
  - vm_compute. reflexivity.
  - vm_compute. reflexivity.
  - vm_compute. reflexivity.
  - apply (Htext (lit "invalid credentials")).
    + vm_compute. reflexivity.
    + intros H. discriminate H.
    + intros H. vm_compute in H. discriminate H.
Defined.

(** C3 (as stated, refuted).  After the greeting and a first key
    disclosure the authenticate command is out.  A second key disclosure
    is not refused: the step raises nothing, the encryptor runs a second
    time and a second authenticate command is sent. *)
Lemma second_key_reply_is_accepted :
  let conn := Sample.peer [] ClosedOK in
  match run_prefix Sample.libs conn (lit "jwt-token") (lit "user")
          [Text Sample.greeting; Text (Sample.text Sample.key_reply)]
          (Locals None None) Sample.w0 with
  | Some (l1, w1) =>
      (exists cmd, In cmd (sent (trace w1)) /\
                   startswith cmd authenticate_prefix = true) /\
      encryptor_calls (trace w1) = 1%nat /\
      match loop_body Sample.libs conn (lit "jwt-token") (lit "user") l1
              (Text (Sample.text Sample.key_reply)) w1 with
      | (Ok (Continue l2), w2) =>
          l2 = l1 /\
          encryptor_calls (trace w2) = 2%nat /\
          List.length (sent (trace w2)) = 3%nat /\
          Forall (fun cmd => startswith cmd authenticate_prefix = true)
                 (drop 1 (sent (trace w2)))
      | _ => False
      end
  | None => False
  end.
Proof.
  vm_compute. split.
  - eexists. split; [right; left; reflexivity | reflexivity].
  - repeat split; repeat constructor.
Qed.

(** C3 (amended).  A well-formed key disclosure (a non-empty list whose
    first element is a map) that arrives after the authenticate command has
    been sent, a session token being held, is handled like the first one:
    [get_auth_payload] is entered once more, with fresh random bytes; when
    it returns a command, that command is handed to [connection.send] and
    the loop goes on with its locals unchanged; when it raises, its
    exception is what the attempt fails with: [AttributeError] for a key
    that is not text, [UnicodeEncodeError] for text that cannot be
    encoded, or whatever the key import or the RSA encryption raised on
    the input they refused.  The step never raises for the reply being
    out of order. *)
Theorem key_reply_after_authenticate (lib : libraries) (conn : connection)
    (tok au : list N) (l : locals) (w : world) (m : list N)
    (d e : gmap (list N) json) (others : list json) (tk : list N)
    (Hsent : authenticate_sent w)
    (Hm : startswith m hello_prefix = false)
    (Hj : json_loads lib m = Some (JDict d))
    (Hk : dict_get d getkey_result = JList (JDict e :: others))
    (Ht : session_token l = Some tk)
    (Hne : tk <> []) :
  exists r w1,
    get_auth_payload lib (dict_get e pubkey) tk tok au w = (r, w1) /\
    encryptor_calls (trace w1) = S (encryptor_calls (trace w)) /\
    sent (trace w1) = sent (trace w) /\
    match r with
    | Ok payload =>
        startswith payload authenticate_prefix = true /\
        loop_body lib conn tok au l (Text m) w
        = (if send_fails conn (List.length (sent (trace w)))
           then Err ConnectionClosed
           else Ok (Continue l),
           World (entropy w1) (trace w1 ++ [EvSend payload])) /\
        authenticate_sent (World (entropy w1) (trace w1 ++ [EvSend payload]))
    | Err x =>
        loop_body lib conn tok au l (Text m) w = (Err x, w1) /\
        (x = AttributeError \/ x = UnicodeEncodeError \/ raised_by_rsa lib x)
    end.
Proof.
  destruct (get_auth_payload lib (dict_get e pubkey) tk tok au w)
    as [r w1] eqn:E.
  exists r, w1. split; [done|].
  destruct (get_auth_payload_trace _ _ _ _ _ _ _ _ E) as [Hs Hc].
  split; [done|]. split; [done|].
  assert (truthy (dict_get d getkey_result) = true) as Hk'
    by (by rewrite Hk).
  rewrite reply_step, Hj, Hk' by done.
  rewrite (on_getkey_result_run lib conn tok au l d w tk) by done.
  rewrite Hk. simpl. rewrite E.
  destruct r as [payload|x].
  - pose proof (get_auth_payload_prefix _ _ _ _ _ _ _ _ E) as Hp.
    split; [done|]. rewrite Hs. split; [done|].
    exists payload. split; [|done]. simpl. rewrite sent_app.
    apply in_or_app. right. simpl. by left.
  - split; [done|]. by apply get_auth_payload_raises in E.
Qed.

Lemma key_reply_after_authenticate_witness :
  let conn := Sample.peer [] ClosedOK in
  let w :=
    snd (authenticate_with_audio_server Sample.libs
           (Sample.peer [Text Sample.greeting;
                         Text (Sample.text Sample.key_reply)] ClosedOK)
           (lit "jwt-token") (lit "user") Sample.w0) in
  exists r w1,
    get_auth_payload Sample.libs (JStr (lit Sample.key_line)) (lit "abc123")
      (lit "jwt-token") (lit "user") w = (r, w1) /\
    encryptor_calls (trace w1) = 2%nat.
Proof.
  pose (w := snd (authenticate_with_audio_server Sample.libs
                    (Sample.peer [Text Sample.greeting;
                                  Text (Sample.text Sample.key_reply)] ClosedOK)
                    (lit "jwt-token") (lit "user") Sample.w0)).
  destruct (key_reply_after_authenticate Sample.libs (Sample.peer [] ClosedOK)
              (lit "jwt-token") (lit "user")
              (Locals (Some (lit "abc123")) None) w
              (Sample.text Sample.key_reply)
              (list_to_map
                 [(lit "getkey_result",
                   JList [Sample.dict [("pubkey"%string,
                                        JStr (lit Sample.key_line))]])])
              (list_to_map [(lit "pubkey", JStr (lit Sample.key_line))])
              [] (lit "abc123"))
    as (r & w1 & Hrun & Hcalls & _).
  - eexists. split; [vm_compute; right; left; reflexivity|].
    vm_compute. reflexivity.
  - vm_compute. reflexivity.
  - vm_compute. reflexivity.
  - vm_compute. reflexivity.
  - reflexivity.
  - intros H. discriminate H.
  - exists r, w1. split.
    + rewrite <- Hrun. f_equal.
    + rewrite Hcalls. vm_compute. reflexivity.
Defined.

(** * Further properties of the module *)

(** ** [normalize_public_key]: what it keeps *)

Section Trim.

Implicit Types s t : list N.

Lemma head_lstrip s c : head (lstrip s) = Some c -> isspace c = false.
Proof.
  pose proof (lstrip_head s) as H.
  destruct (lstrip s) as [|x t]; [done|]. by intros [= <-].
Qed.

Lemma last_rstrip s c : last (rstrip s) = Some c -> isspace c = false.
Proof.
  unfold rstrip. rewrite rev_alt. fold (reverse (lstrip (rev s))).
  rewrite last_reverse. apply head_lstrip.
Qed.

Lemma head_rstrip s c :
  head s = Some c -> isspace c = false -> head (rstrip s) = Some c.
Proof.
  destruct s as [|x s]; [done|]. intros [= ->] H.
  by rewrite rstrip_cons.
Qed.

Lemma strip_trimmed s : trimmed (strip s).
Proof.
  split; [|apply last_rstrip].
  unfold strip. pose proof (lstrip_head s) as H.
  destruct (lstrip s) as [|x t]; [done|].
  rewrite rstrip_cons by done. by intros c [= <-].
Qed.

Lemma ink_app s t : ink (s ++ t) = ink s ++ ink t.
Proof. apply List.filter_app. Qed.

Lemma ink_cons c s :
  ink (c :: s) = if isspace c then ink s else c :: ink s.
Proof. unfold ink. simpl. by destruct (isspace c). Qed.

Lemma ink_lstrip s : ink (lstrip s) = ink s.
Proof.
  induction s as [|c s IH]; [done|].
  rewrite ink_cons.
  change (lstrip (c :: s)) with (if isspace c then lstrip s else c :: s).
  destruct (isspace c) eqn:E; [done|]. by rewrite ink_cons, E.
Qed.

Lemma ink_rev s : ink (rev s) = rev (ink s).
Proof.
  induction s as [|c s IH]; [done|].
  change (rev (c :: s)) with (rev s ++ [c]).
  rewrite ink_app, IH, !ink_cons.
  destruct (isspace c); [apply app_nil_r | done].
Qed.

Lemma ink_strip s : ink (strip s) = ink s.
Proof.
  unfold strip, rstrip.
  by rewrite ink_rev, ink_lstrip, ink_rev, rev_involutive, ink_lstrip.
Qed.

(** Replacing a marker by the marker and white space changes white space
    only. *)
Lemma ink_replace old new s :
  old <> [] -> ink new = ink old -> ink (replace s old new) = ink s.
Proof.
  destruct old as [|c old]; [done|]. intros _ Hnew. unfold replace.
  induction s as [s IH] using (induction_ltof1 _ (@List.length N)).
  unfold ltof in IH. destruct s as [|x s]; [done|].
  destruct (startswith (x :: s) (c :: old)) eqn:E.
  - apply startswith_prefix in E. rewrite E at 1.
    rewrite replace_from_match, ink_app, Hnew.
    rewrite IH.
    + rewrite <- ink_app. by rewrite <- E.
    + rewrite length_drop. simpl. lia.
  - change (replace_from (c :: old) new (x :: s) 0)
      with (if startswith (x :: s) (c :: old)
            then new ++ replace_from (c :: old) new s (List.length old)
            else x :: replace_from (c :: old) new s 0).
    rewrite E.
    rewrite !ink_cons. rewrite IH by (simpl; lia). done.
Qed.

End Trim.

(** X1.  Whatever it is given, [normalize_public_key] returns a text that
    neither starts nor ends with a white-space character. *)
Theorem normalize_public_key_trimmed (public_key : list N) :
  trimmed (normalize_public_key public_key).
Proof. unfold normalize_public_key. apply strip_trimmed. Qed.

(** X2.  [normalize_public_key] changes white space only: the characters
    of its result that are not white space are those of its input, in the
    same order. *)
Theorem normalize_public_key_keeps_ink (public_key : list N) :
  ink (normalize_public_key public_key) = ink public_key.
Proof.
  unfold normalize_public_key.
  assert (ink newline = []) as Hnl by (vm_compute; reflexivity).
  rewrite ink_strip.
  rewrite ink_replace.
  - rewrite ink_replace; [reflexivity | |].
    + rewrite header_cons. discriminate.
    + by rewrite ink_app, Hnl, app_nil_r.
  - rewrite footer_cons. discriminate.
  - by rewrite ink_app, Hnl.
Qed.

(** ** [get_auth_payload]: when it returns, and what it hands on *)

Section EncryptorMore.

Variable lib : libraries.

Implicit Types s t : list N.

Lemma encode_utf8_app s t a b :
  encode_utf8 s = Ok a -> encode_utf8 t = Ok b ->
  encode_utf8 (s ++ t) = Ok (a ++ b).
Proof.
  revert a. induction s as [|c s IH]; intros a.
  - by intros [= <-].
  - simpl. destruct (encode_char c) as [x|]; [|done].
    destruct (encode_utf8 s) as [y|]; [|done].
    intros [= <-] Ht. rewrite (IH y eq_refl Ht). by rewrite app_assoc.
Qed.

Lemma encode_utf8_app_inv s t p :
  encode_utf8 (s ++ t) = Ok p ->
  exists a b, encode_utf8 s = Ok a /\ encode_utf8 t = Ok b /\ p = a ++ b.
Proof.
  revert p. induction s as [|c s IH]; intros p.
  - intros H. by exists [], p.
  - simpl. destruct (encode_char c) as [x|]; [|done].
    destruct (encode_utf8 (s ++ t)) as [y|]; [|done].
    destruct (IH y eq_refl) as (a & b & -> & -> & ->).
    intros [= <-]. exists (x ++ a), b. by rewrite app_assoc.
Qed.

Lemma rsa_text_ascii_part w :
  encode_utf8 (bytes_hex (aes_key_of w) ++ colon ++ bytes_hex (iv_of w) ++ colon)
  = Ok (map octet (bytes_hex (aes_key_of w) ++ colon ++ bytes_hex (iv_of w)
                   ++ colon)).
Proof.
  apply encode_utf8_ascii.
  assert (forall bs, Forall (fun c => c < 128) (bytes_hex bs)) as Hhex.
  { intros bs. eapply Forall_impl; [apply bytes_hex_lower|].
    intros c. apply is_lower_hex_ascii. }
  assert (Forall (fun c => c < 128) colon) as Hcolon
    by (repeat constructor).
  apply Forall_app; split; [apply Hhex|].
  apply Forall_app; split; [exact Hcolon|].
  apply Forall_app; split; [apply Hhex | exact Hcolon].
Qed.

(** The RSA plaintext encodes exactly when the session token does. *)
Lemma encode_rsa_text w st p :
  encode_utf8 (rsa_text w st) = Ok p <->
  exists sb, encode_utf8 st = Ok sb /\ p = rsa_payload_of w sb.
Proof.
  unfold rsa_text, rsa_payload_of.
  replace (bytes_hex (aes_key_of w) ++ colon ++ bytes_hex (iv_of w)
           ++ colon ++ st)
    with ((bytes_hex (aes_key_of w) ++ colon ++ bytes_hex (iv_of w) ++ colon)
          ++ st) by (by rewrite <- !app_assoc).
  split.
  - intros (a & b & Ha & Hb & ->)%encode_utf8_app_inv.
    rewrite rsa_text_ascii_part in Ha. injection Ha as <-. by exists b.
  - intros (sb & Hs & ->).
    by apply encode_utf8_app; [apply rsa_text_ascii_part|].
Qed.

Lemma length_rsa_payload_of w sb :
  List.length (rsa_payload_of w sb) = (98 + List.length sb)%nat.
Proof.
  unfold rsa_payload_of.
  rewrite length_app, length_map, !length_app, !length_bytes_hex.
  rewrite length_aes_key_of, length_iv_of. reflexivity.
Qed.

Lemma quote_encodable s : (exists q, quote s = Ok q) <-> encodable s.
Proof.
  unfold quote, encodable. destruct s as [|c s]; [split; eauto|].
  destruct (encode_utf8 (c :: s)) as [b|e]; split; eauto;
    intros [? ?]; done.
Qed.

Lemma hexdigit_upper_safe d : d < 16 -> always_safe (hexdigit_upper d) = true.
Proof.
  intros H. unfold hexdigit_upper, always_safe.
  destruct (N.ltb_spec d 10).
  - assert ((48 <=? 48 + d) && (48 + d <=? 57) = true) as ->
      by (apply andb_true_intro; split; apply N.leb_le; lia).
    by rewrite !orb_true_r.
  - assert ((65 <=? 55 + d) && (55 + d <=? 90) = true) as ->
      by (apply andb_true_intro; split; apply N.leb_le; lia).
    done.
Qed.

Lemma quote_byte_url b : Forall (fun c => url_char c = true) (quote_byte b).
Proof.
  pose proof (to_N_lt b) as Hb.
  unfold quote_byte, url_char.
  destruct (always_safe (Byte.to_N b)) eqn:E.
  - repeat constructor. by rewrite E.
  - repeat constructor.
    + rewrite hexdigit_upper_safe; [done|].
      apply N.Div0.div_lt_upper_bound. lia.
    + rewrite hexdigit_upper_safe; [done|]. by apply N.mod_lt.
Qed.

Lemma flat_map_quote_url bs :
  Forall (fun c => url_char c = true) (flat_map quote_byte bs).
Proof.
  induction bs as [|b bs IH]; [constructor|].
  simpl. apply Forall_app. split; [apply quote_byte_url | done].
Qed.

Lemma quote_url s q : quote s = Ok q -> Forall (fun c => url_char c = true) q.
Proof.
  unfold quote. destruct s as [|c s]; [by intros [= <-]|].
  destruct (encode_utf8 (c :: s)) as [bs|]; [|done].
  intros [= <-]. apply flat_map_quote_url.
Qed.

End EncryptorMore.

(** X3.  [get_auth_payload] returns a command exactly when the key it is
    given is a [str], the session token, the token and the user name hold
    no surrogate (they encode to UTF-8), the normalized key imports, and
    the RSA encryption accepts the plaintext; in every other case it
    raises. *)
Theorem get_auth_payload_returns_iff (lib : libraries) (pk : json)
    (st tok au : list N) (w : world) :
  (exists cmd w', get_auth_payload lib pk st tok au w = (Ok cmd, w')) <->
  exists k sb rk c used,
    pk = JStr k /\
    encode_utf8 st = Ok sb /\
    RSA_import_key lib (normalize_public_key k) = Some rk /\
    PKCS1_v1_5_encrypt lib rk (rsa_payload_of w sb)
      (fun i => entropy w (16 + (16 + i))%nat) = (Some c, used) /\
    encodable tok /\ encodable au.
Proof.
  split.
  - intros (cmd & w' & H).
    apply get_auth_payload_returns_inv in H
      as (k & payload & rk & c & used & tb & q
          & -> & Hp & Hk & Hr & Ht & Hq & _).
    apply encode_rsa_text in Hp as (sb & Hs & ->).
    exists k, sb, rk, c, used.
    repeat (split; [done|]). split; [by exists tb|].
    apply quote_encodable. by exists q.
  - intros (k & sb & rk & c & used & -> & Hs & Hk & Hr & [tb Ht] & Ha).
    apply quote_encodable in Ha as [q Hq].
    assert (encode_utf8 (rsa_text w st) = Ok (rsa_payload_of w sb)) as Hp
      by (apply encode_rsa_text; by exists sb).
    rewrite get_auth_payload_unfold. cbv zeta.
    rewrite Hp, Hk, Hr, Ht, Hq. eauto.
Qed.



(** X5.  The plaintext a call hands to RSA is 98 bytes (64 hex digits of
    the key, a colon, 32 hex digits of the IV, a colon) followed by the
    UTF-8 bytes of the session token: its length is 98 plus the encoded
    length of the session token, whatever the random bytes are. *)
Theorem rsa_plaintext_length (lib : libraries) (pk : json)
    (st tok au : list N) (w : world) (r : result (list N)) (w' : world)
    (plaintext : list Init.Byte.byte)
    (Hrun : get_auth_payload lib pk st tok au w = (r, w'))
    (Hcall : In (EvRsaEncrypt plaintext) (new_events w w')) :
  exists sb,
    encode_utf8 st = Ok sb /\
    plaintext
    = map octet (bytes_hex (aes_key_of w) ++ colon ++ bytes_hex (iv_of w)
                 ++ colon) ++ sb /\
    List.length plaintext = (98 + List.length sb)%nat.
Proof.
  destruct (encryptor_event_in lib _ _ _ _ _ _ _ _ Hrun Hcall) as [H|H];
    [done|].
  cbn [encryptor_event] in H.
  apply encode_rsa_text in H as (sb & Hs & ->).
  exists sb. split; [done|]. split; [done|]. apply length_rsa_payload_of.
Qed.

Lemma rsa_plaintext_length_witness :
  let plaintext :=
    map octet (lit "3030303130323033303430353036303730383039306130623063306430653066:101112131415161718191a1b1c1d1e1f:abc123") in
  exists sb,
    encode_utf8 (lit "abc123") = Ok sb /\
    List.length plaintext = (98 + List.length sb)%nat.
Proof.
  pose (run := get_auth_payload Sample.libs (JStr (lit Sample.key_line))
                 (lit "abc123") (lit "jwt-token") (lit "user") Sample.w0).
  destruct (rsa_plaintext_length Sample.libs (JStr (lit Sample.key_line))
              (lit "abc123") (lit "jwt-token") (lit "user") Sample.w0
              (fst run) (snd run)
              (map octet (lit "3030303130323033303430353036303730383039306130623063306430653066:101112131415161718191a1b1c1d1e1f:abc123")))
    as (sb & Hs & _ & Hlen).
  - vm_compute. reflexivity.
  - vm_compute. do 4 right. left. reflexivity.
  - exists sb. split; [exact Hs | exact Hlen].
Defined.

(** X6.  What a call hands to the AES cipher is the UTF-8 bytes of the
    token followed by [k] bytes of value [k], with [k] between 1 and 16
    chosen so that the whole fills complete 16-byte blocks: the token is
    always padded, an empty one to a full block. *)
Theorem aes_plaintext_padded (lib : libraries) (pk : json)
    (st tok au : list N) (w : world) (r : result (list N)) (w' : world)
    (data : list Init.Byte.byte)
    (Hrun : get_auth_payload lib pk st tok au w = (r, w'))
    (Hcall : In (EvAesEncrypt data) (new_events w w')) :
  exists (tb : list Init.Byte.byte) (k : nat),
    encode_utf8 tok = Ok tb /\
    data = tb ++ repeat (octet (N.of_nat k)) k /\
    (1 <= k <= 16)%nat /\
    List.length data = (List.length tb + k)%nat /\
    (List.length data mod 16 = 0)%nat.
Proof.
  destruct (encryptor_event_in lib _ _ _ _ _ _ _ _ Hrun Hcall) as [H|H];
    [done|].
  cbn [encryptor_event] in H. destruct H as (tb & Ht & ->).
  exists tb, (16 - List.length tb mod 16)%nat.
  split; [done|]. split; [done|].
  pose proof (Nat.mod_upper_bound (List.length tb) 16) as Hr.
  split; [lia|]. split; [|apply length_pad].
  unfold pad. by rewrite length_app, repeat_length.
Qed.

Lemma aes_plaintext_padded_witness :
  exists (tb : list Init.Byte.byte) (k : nat),
    encode_utf8 (lit "jwt-token") = Ok tb /\
    map octet (lit "jwt-token") ++ repeat (octet 7) 7
    = tb ++ repeat (octet (N.of_nat k)) k /\
    (1 <= k <= 16)%nat.
Proof.
  pose (run := get_auth_payload Sample.libs (JStr (lit Sample.key_line))
                 (lit "abc123") (lit "jwt-token") (lit "user") Sample.w0).
  destruct (aes_plaintext_padded Sample.libs (JStr (lit Sample.key_line))
              (lit "abc123") (lit "jwt-token") (lit "user") Sample.w0
              (fst run) (snd run)
              (map octet (lit "jwt-token") ++ repeat (octet 7) 7))
    as (tb & k & Ht & Hd & Hk & _).
  - vm_compute. reflexivity.
  - vm_compute. do 6 right. left. reflexivity.
  - exists tb, k. split; [exact Ht|]. split; [exact Hd | exact Hk].
Defined.

(** X7.  A command [get_auth_payload] returns is made of unreserved URL
    characters (letters, digits, [_ . - ~]), ['%'] and ['/'] only, whatever
    the user name, the key and the ciphertexts are. *)
Theorem authenticate_command_url_safe (lib : libraries) (pk : json)
    (st tok au : list N) (w : world) (cmd : list N) (w' : world)
    (Hrun : get_auth_payload lib pk st tok au w = (Ok cmd, w')) :
  Forall (fun c => url_char c = true) cmd.
Proof.
  apply get_auth_payload_returns_inv in Hrun
    as (k & payload & rk & c & used & tb & q
        & _ & _ & _ & _ & _ & Hq & ->).
  assert (Forall (fun c => url_char c = true) slash) as Hslash
    by (by repeat constructor).
  apply Forall_app; split.
  { apply List.Forall_forall. intros x Hx.
    by repeat (destruct Hx as [<-|Hx]; [reflexivity|]). }
  apply Forall_app; split; [by apply quote_url in Hq|].
  apply Forall_app; split; [exact Hslash|].
  apply Forall_app; split; [apply flat_map_quote_url|].
  apply Forall_app; split; [exact Hslash | apply flat_map_quote_url].
Qed.

Lemma authenticate_command_url_safe_witness :
  Forall (fun c => url_char c = true)
    (lit "secure/authenticate/user%2F1%20x/MzAzMDMwMzEzMDMyMzAzMzMwMzQzMDM1MzAzNjMwMzczMDM4MzAzOTMwNjEzMDYyMzA2MzMwNjQzMDY1MzA2NjoxMDExMTIxMzE0MTUxNjE3MTgxOTFhMWIxYzFkMWUxZjphYmMxMjM%3D/and0LXRva2VuBwcHBwcHBw%3D%3D").
Proof.
  pose (run := get_auth_payload Sample.libs (JStr (lit Sample.key_line))
                 (lit "abc123") (lit "jwt-token") (lit "user/1 x") Sample.w0).
  apply (authenticate_command_url_safe Sample.libs
           (JStr (lit Sample.key_line)) (lit "abc123") (lit "jwt-token")
           (lit "user/1 x") Sample.w0 _ (snd run)).
  vm_compute. reflexivity.
Defined.

(** ** [authenticate_with_audio_server]: what a step does to the world *)

Section StepEffect.

Variable lib : libraries.
Variable conn : connection.
Variables token active_user : list N.

Lemma step_effect l msg w c w' :
  loop_body lib conn token active_user l msg w = (c, w') ->
  step_kind lib conn token active_user l msg w c w'.
Proof.
  destruct msg as [m|b].
  2: { intros [= <- <-]. by apply QuietStep. }
  destruct (startswith m hello_prefix) eqn:Eh.
  - rewrite hello_step, on_hello_run by done.
    intros [= <- <-]. by eapply HelloStep.
  - rewrite reply_step by done.
    destruct (json_loads lib m) as [[| | | | | |d]|];
      try (intros [= <- <-]; apply QuietStep; [done|];
           intros l' [= <-]; done).
    destruct (truthy (dict_get d getkey_result)).
    + destruct (token_missing (session_token l)) eqn:Et.
      { rewrite on_getkey_result_missing by done.
        intros [= <- <-]. by apply QuietStep. }
      destruct (session_token l) as [[|x tk]|] eqn:Es; try done.
      rewrite (on_getkey_result_run lib conn token active_user l d w (x :: tk))
        by done.
      destruct (subscript0 _) as [first|e0].
      2: { intros [= <- <-]. by apply QuietStep. }
      destruct (method_get first pubkey) as [key|e0].
      2: { intros [= <- <-]. by apply QuietStep. }
      destruct (get_auth_payload lib key (x :: tk) token active_user w)
        as [[cmd|e0] w1] eqn:E; intros [= <- <-];
        by eapply KeyStep with (m := m) (tk := x :: tk) (pk := key) (w1 := w1).
    + rewrite on_other_dict_run. cbv zeta.
      intros [= <- <-]. apply QuietStep; [done|].
      intros l'.
      destruct (truthy (dict_get d authenticate_result));
        [destruct (eq_str _ _)|]; done.
Qed.

(** Proving that a property [F] of the world holds when the attempt ends,
    by an invariant [I] of the loop. *)
Lemma loop_invariant (I : locals -> world -> Prop) (F : world -> Prop) :
  (forall l w, I l w -> F w) ->
  (forall l msg w c w',
     I l w ->
     loop_body lib conn token active_user l msg w = (c, w') ->
     match c with
     | Ok (Continue l') => I l' w'
     | _ => F w'
     end) ->
  forall msgs l w o w',
    I l w ->
    message_loop lib conn token active_user msgs l w = (o, w') ->
    F w'.
Proof.
  intros Hend Hstep msgs. induction msgs as [|msg msgs IH]; intros l w o w' Hi.
  - simpl. destruct (closing conn); intros [= _ <-]; eauto.
  - rewrite loop_cons.
    destruct (loop_body lib conn token active_user l msg w) as [c w1] eqn:E.
    pose proof (Hstep _ _ _ _ _ Hi E) as H.
    destruct c as [[l1|]|e].
    + by apply IH.
    + by intros [= _ <-].
    + by intros [= _ <-].
Qed.

End StepEffect.

(** ** [authenticate_with_audio_server]: invariants of the loop *)

Section LoopInvariants.

Variable lib : libraries.
Variable conn : connection.
Variables token active_user : list N.

Lemma known_getkey : known_command getkey_command.
Proof. by left. Qed.

(** What one step sends: nothing, or one known command. *)
Lemma step_sends l msg w c w' :
  loop_body lib conn token active_user l msg w = (c, w') ->
  sent (trace w') = sent (trace w) \/
  exists cmd, sent (trace w') = sent (trace w) ++ [cmd] /\ known_command cmd.
Proof.
  intros H. destruct (step_effect _ _ _ _ _ _ _ _ _ H)
    as [-> _ | m _ _ -> _ | m tk pk r w1 _ _ _ _ Hr Hc].
  - by left.
  - right. exists getkey_command. simpl. rewrite sent_app.
    split; [done | apply known_getkey].
  - destruct (get_auth_payload_trace _ _ _ _ _ _ _ _ Hr) as [Hs _].
    destruct r as [cmd|e].
    + destruct Hc as [-> _]. right. exists cmd. simpl.
      rewrite sent_app, Hs. split; [done|]. right.
      by apply get_auth_payload_prefix in Hr.
    + destruct Hc as [_ ->]. by left.
Qed.

Lemma loop_sends msgs l w o w' :
  message_loop lib conn token active_user msgs l w = (o, w') ->
  exists new,
    sent (trace w') = sent (trace w) ++ new /\
    Forall known_command new /\
    (List.length new <= List.length msgs)%nat.
Proof.
  revert l w. induction msgs as [|msg msgs IH]; intros l w.
  - simpl. destruct (closing conn); intros [= _ <-]; exists [];
      by rewrite app_nil_r.
  - rewrite loop_cons.
    destruct (loop_body lib conn token active_user l msg w) as [c w1] eqn:E.
    apply step_sends in E.
    assert (exists new1, sent (trace w1) = sent (trace w) ++ new1 /\
                         Forall known_command new1 /\
                         (List.length new1 <= 1)%nat) as (new1 & H1 & Hk & Hl).
    { destruct E as [E|(cmd & E & Hc)].
      - exists []. rewrite app_nil_r. split; [done|]. split; [constructor|].
        simpl. lia.
      - exists [cmd]. split; [done|].
        split; [constructor; [done | constructor] | done]. }
    destruct c as [[l1|]|e].
    + intros H. destruct (IH _ _ H) as (new & H2 & Hk2 & Hl2).
      exists (new1 ++ new). rewrite H2, H1, <- app_assoc.
      split; [done|]. split; [by apply Forall_app|].
      rewrite length_app. simpl. lia.
    + intros [= _ <-]. exists new1. split; [done|]. split; [done|].
      simpl. lia.
    + intros [= _ <-]. exists new1. split; [done|]. split; [done|].
      simpl. lia.
Qed.

Lemma head_app_keep (s t : list (list N)) c :
  (forall x, head s = Some x -> x = c) -> s <> [] ->
  forall x, head (s ++ t) = Some x -> x = c.
Proof. destruct s; [done|]. simpl. auto. Qed.

Lemma key_request_first_step l msg w c w' :
  key_request_first_inv l w ->
  loop_body lib conn token active_user l msg w = (c, w') ->
  match c with
  | Ok (Continue l') => key_request_first_inv l' w'
  | _ => forall x, head (sent (trace w')) = Some x -> x = getkey_command
  end.
Proof.
  intros [Hnone Hhead] H.
  assert (forall x, head (sent (trace w ++ [EvSend getkey_command])) = Some x ->
                    x = getkey_command) as Hhello.
  { rewrite sent_app. destruct (sent (trace w)) as [|y s] eqn:Es.
    - by intros x [= <-].
    - by apply head_app_keep. }
  destruct (step_effect _ _ _ _ _ _ _ _ _ H)
    as [-> Hl | m _ _ -> -> | m tk pk r w1 _ _ Htk _ Hr Hc].
  - destruct c as [[l'|]|e]; try done. by rewrite (Hl l' eq_refl).
  - destruct (send_fails conn _); [done|]. split; [|done].
    simpl. rewrite sent_app. by destruct (sent (trace w)).
  - destruct (get_auth_payload_trace _ _ _ _ _ _ _ _ Hr) as [Hs _].
    assert (sent (trace w) <> []) as Hne.
    { intros E. apply Hnone in E. congruence. }
    destruct r as [cmd|e].
    + destruct Hc as [-> ->].
      assert (forall x, head (sent (trace w1 ++ [EvSend cmd])) = Some x ->
                        x = getkey_command) as Hh.
      { rewrite sent_app, Hs. by apply head_app_keep. }
      destruct (send_fails conn _); [done|]. split; [|done].
      simpl. rewrite sent_app, Hs. by destruct (sent (trace w)).
    + destruct Hc as [-> ->]. by rewrite Hs.
Qed.

Lemma encryptor_event_sound pk st tok w t :
  Forall (encryptor_event pk st tok w) t ->
  Forall (sound_entry token active_user) t.
Proof.
  intros H. eapply Forall_impl; [exact H|]. by intros [].
Qed.

Lemma entries_sound_step w0 l msg w c w' :
  entries_sound_inv token active_user w0 l w ->
  loop_body lib conn token active_user l msg w = (c, w') ->
  match c with
  | Ok (Continue l') => entries_sound_inv token active_user w0 l' w'
  | _ => exists new, trace w' = trace w0 ++ new /\
                     Forall (sound_entry token active_user) new
  end.
Proof.
  intros [Htrim (new & Ht & Hnew)] H.
  destruct (step_effect _ _ _ _ _ _ _ _ _ H)
    as [-> Hl | m _ _ -> -> | m tk pk r w1 _ _ Htk Hne Hr Hc].
  - destruct c as [[l'|]|e]; try by exists new.
    rewrite (Hl l' eq_refl). split; [done | by exists new].
  - assert (exists new', trace w ++ [EvSend getkey_command] = trace w0 ++ new' /\
                         Forall (sound_entry token active_user) new')
      as Hext.
    { exists (new ++ [EvSend getkey_command]). rewrite Ht, <- app_assoc.
      split; [done|]. apply Forall_app. split; [done|].
      constructor; [done | constructor]. }
    destruct (send_fails conn _); [done|]. split; [|done].
    simpl. unfold token_after_hello.
    destruct (after_first m token_marker); [|done].
    intros tk [= <-]. apply strip_trimmed.
  - apply get_auth_payload_events in Hr as (ev & Hev & Hq).
    apply encryptor_event_sound in Hq.
    assert (Forall (sound_entry token active_user)
              (new ++ EvEncryptor pk tk token active_user :: ev)) as Hall.
    { apply Forall_app. split; [done|]. constructor; [|done].
      simpl. split; [done|]. split; [by apply Htrim | done]. }
    destruct r as [cmd|e].
    + destruct Hc as [-> ->].
      assert (exists new', trace w1 ++ [EvSend cmd] = trace w0 ++ new' /\
                           Forall (sound_entry token active_user) new')
        as Hext.
      { exists ((new ++ EvEncryptor pk tk token active_user :: ev)
                ++ [EvSend cmd]).
        rewrite Hev, Ht, <- !app_assoc. split; [done|].
        rewrite app_assoc. apply Forall_app. split; [done|].
        constructor; [done | constructor]. }
      destruct (send_fails conn _); [done|]. by split.
    + destruct Hc as [-> ->].
      exists (new ++ EvEncryptor pk tk token active_user :: ev).
      rewrite Hev, Ht, <- app_assoc. by split.
Qed.

(** Only a greeting changes the session token. *)
Lemma continue_step_token l msg w l' w' :
  loop_body lib conn token active_user l msg w = (Ok (Continue l'), w') ->
  session_token l' = greeting_token (session_token l) msg.
Proof.
  intros H. destruct msg as [m|b]; [|done].
  destruct (startswith m hello_prefix) eqn:E.
  - revert H. rewrite hello_step, on_hello_run by done.
    destruct (send_fails conn _); [done|]. intros [= <- _].
    simpl. by rewrite E.
  - simpl. rewrite E.
    apply continue_step in H as [_ [H|(m' & [= <-] & H & _)]]; [done|].
    congruence.
Qed.

End LoopInvariants.

(** X8.  In the course of an attempt at most one command is sent per
    inbound message, and every command sent is either the key request
    ["audio/cfg/getkey/full"] or starts with ["secure/authenticate/"]. *)
Theorem sends_are_known_and_few (lib : libraries) (conn : connection)
    (tok au : list N) (w : world) :
  let w' := snd (authenticate_with_audio_server lib conn tok au w) in
  exists new,
    sent (trace w') = sent (trace w) ++ new /\
    Forall known_command new /\
    (List.length new <= List.length (inbound conn))%nat.
Proof.
  intros w'. subst w'.
  destruct (authenticate_with_audio_server lib conn tok au w) as [o w'] eqn:E.
  exact (loop_sends lib conn tok au (inbound conn) _ _ _ _ E).
Qed.

(** X9.  On a connection on which nothing has been sent yet, the first
    command an attempt sends is the key request: an authenticate command
    never goes out before ["audio/cfg/getkey/full"]. *)
Theorem key_request_is_sent_first (lib : libraries) (conn : connection)
    (tok au : list N) (w : world)
    (Hfresh : sent (trace w) = []) :
  let w' := snd (authenticate_with_audio_server lib conn tok au w) in
  forall cmd, head (sent (trace w')) = Some cmd -> cmd = getkey_command.
Proof.
  intros w'. subst w'.
  destruct (authenticate_with_audio_server lib conn tok au w) as [o w'] eqn:E.
  refine (loop_invariant lib conn tok au key_request_first_inv
            (fun w => forall c, head (sent (trace w)) = Some c ->
                                c = getkey_command)
            _ _ (inbound conn) (Locals None None) w o w' _ E).
  - by intros l w1 [_ H].
  - apply key_request_first_step.
  - split; [done|]. by rewrite Hfresh.
Qed.

Lemma key_request_is_sent_first_witness :
  let conn :=
    Sample.peer [Text Sample.greeting; Text (Sample.text Sample.key_reply)]
      ClosedOK in
  let w' :=
    snd (authenticate_with_audio_server Sample.libs conn (lit "jwt-token")
           (lit "user") Sample.w0) in
  List.length (sent (trace w')) = 2%nat /\
  match head (sent (trace w')) with
  | Some cmd => cmd = getkey_command
  | None => False
  end.
Proof.
  intros conn w'. split; [vm_compute; reflexivity|].
  assert (head (sent (trace w')) = Some (lit "audio/cfg/getkey/full")) as H
    by (vm_compute; reflexivity).
  rewrite H.
  exact (key_request_is_sent_first Sample.libs conn (lit "jwt-token")
           (lit "user") Sample.w0 eq_refl (lit "audio/cfg/getkey/full") H).
Defined.

(** X10.  Every entry into [get_auth_payload] made during an attempt
    carries a session token that is not empty and has no white space at
    either end, together with the token and the user name the attempt was
    started with: the encryptor never runs before a session token is
    held. *)
Theorem encryptor_entries_are_sound (lib : libraries) (conn : connection)
    (tok au : list N) (w : world) :
  Forall (sound_entry tok au)
    (new_events w (snd (authenticate_with_audio_server lib conn tok au w))).
Proof.
  destruct (authenticate_with_audio_server lib conn tok au w) as [o w'] eqn:E.
  destruct (loop_invariant lib conn tok au (entries_sound_inv tok au w)
              (fun w1 => exists new, trace w1 = trace w ++ new /\
                                     Forall (sound_entry tok au) new)
              (fun l w1 H => proj2 H)
              (entries_sound_step lib conn tok au w)
              (inbound conn) (Locals None None) w o w')
    as (new & Ht & Hnew).
  - split; [done|]. exists []. by rewrite app_nil_r.
  - exact E.
  - simpl. by rewrite (new_events_app _ _ _ Ht).
Qed.

(** X11.  The session token held after any number of messages is the one
    the most recent greeting with the marker left: replies, binary frames
    and greetings without the marker never change it. *)
Theorem session_token_follows_greetings (lib : libraries) (conn : connection)
    (tok au : list N) (pre : list message) (l : locals) (w : world)
    (l' : locals) (w' : world)
    (Hrun : run_prefix lib conn tok au pre l w = Some (l', w')) :
  session_token l' = fold_left greeting_token pre (session_token l).
Proof.
  revert l w Hrun. induction pre as [|msg pre IH]; intros l w.
  - by intros [= <- _].
  - simpl.
    destruct (loop_body lib conn tok au l msg w) as [[[l1|]|e] w1] eqn:E;
      try done.
    intros H. rewrite (IH _ _ H).
    by rewrite (continue_step_token _ _ _ _ _ _ _ _ _ E).
Qed.

Lemma session_token_follows_greetings_witness :
  let pre :=
    [Text Sample.greeting; Text (lit "[1, 2]");
     Text (lit "LWSS V 16.1.11.06 | ~API:1.6~");
     Text (lit "LWSS Session-Token: xyz ")] in
  exists l' w',
    run_prefix Sample.libs (Sample.peer [] ClosedOK) (lit "jwt") (lit "user")
      pre (Locals None None) Sample.w0 = Some (l', w') /\
    session_token l' = Some (lit "xyz").
Proof.
  pose (pre := [Text Sample.greeting; Text (lit "[1, 2]");
                Text (lit "LWSS V 16.1.11.06 | ~API:1.6~");
                Text (lit "LWSS Session-Token: xyz ")]).
  pose (run := run_prefix Sample.libs (Sample.peer [] ClosedOK) (lit "jwt")
                 (lit "user") pre (Locals None None) Sample.w0).
  assert (exists l' w', run = Some (l', w')) as (l' & w' & Hrun)
    by (vm_compute; eauto).
  exists l', w'. split; [exact Hrun|].
  rewrite (session_token_follows_greetings Sample.libs
             (Sample.peer [] ClosedOK) (lit "jwt") (lit "user") pre
             (Locals None None) Sample.w0 l' w' Hrun).
  vm_compute. reflexivity.
Defined.

(** ** [authenticate_with_audio_server]: edge cases and the whole exchange *)

Section Edges.

Variable lib : libraries.
Variable conn : connection.
Variables token active_user : list N.

Lemma lstrip_blank (s : list N) :
  Forall (fun c => isspace c = true) s -> lstrip s = [].
Proof. induction 1 as [|c s Hc _ IH]; [done|]. simpl. by rewrite Hc. Qed.

Lemma strip_blank (s : list N) :
  Forall (fun c => isspace c = true) s -> strip s = [].
Proof. intros H. unfold strip. by rewrite lstrip_blank. Qed.

(** The loop returns [None] only by running out of messages on a
    connection closed normally. *)
Lemma loop_returns_none msgs l w :
  fst (message_loop lib conn token active_user msgs l w) = ReturnedNone <->
  closing conn = ClosedOK /\
  exists l',
    run_prefix lib conn token active_user msgs l w
    = Some (l', snd (message_loop lib conn token active_user msgs l w)).
Proof.
  revert l w. induction msgs as [|msg msgs IH]; intros l w.
  - simpl. destruct (closing conn); split; try done; eauto;
      by intros [? _].
  - rewrite loop_cons. simpl.
    destruct (loop_body lib conn token active_user l msg w)
      as [[[l1|]|e] w1]; [apply IH|..]; split; try done;
      by intros [_ [? ?]].
Qed.

End Edges.

(** X12.  A greeting whose session-token field is blank (nothing but
    white space after the marker) leaves an empty session token, which
    counts as none, even if a token was held before: a key disclosure that
    follows ends the attempt with "No session token captured; cannot
    authenticate.", the encryptor is not entered, and the key request of
    the greeting is all that was sent. *)
Theorem blank_session_token_is_missing (lib : libraries) (conn : connection)
    (tok au : list N) (l : locals) (w : world) (g after m : list N)
    (d : gmap (list N) json) (rest : list message)
    (Hg : startswith g hello_prefix = true)
    (Ha : after_first g token_marker = Some after)
    (Hblank : Forall (fun c => isspace c = true)
                (before_first after token_marker))
    (Hsend : send_fails conn (List.length (sent (trace w))) = false)
    (Hm : startswith m hello_prefix = false)
    (Hj : json_loads lib m = Some (JDict d))
    (Hk : truthy (dict_get d getkey_result) = true) :
  message_loop lib conn tok au (Text g :: Text m :: rest) l w
  = (Raised (Exception no_session_token),
     World (entropy w) (trace w ++ [EvSend getkey_command])).
Proof.
  rewrite loop_cons, hello_step, on_hello_run, Hsend by done.
  rewrite loop_cons, reply_step, Hj, Hk by done.
  rewrite on_getkey_result_missing; [done|].
  simpl. unfold token_after_hello. rewrite Ha.
  by rewrite strip_blank.
Qed.

Lemma blank_session_token_is_missing_witness :
  message_loop Sample.libs (Sample.peer [] ClosedOK) (lit "jwt") (lit "user")
    [Text (lit "LWSS V 16.1.11.06 | Session-Token:   ");
     Text (Sample.text Sample.key_reply)]
    (Locals (Some (lit "abc123")) None) Sample.w0
  = (Raised (Exception no_session_token),
     World (entropy Sample.w0) (trace Sample.w0 ++ [EvSend getkey_command])).
Proof.
  apply (blank_session_token_is_missing Sample.libs (Sample.peer [] ClosedOK)
           (lit "jwt") (lit "user") (Locals (Some (lit "abc123")) None)
           Sample.w0 (lit "LWSS V 16.1.11.06 | Session-Token:   ")
           (lit "   ") (Sample.text Sample.key_reply)
           (list_to_map
              [(lit "getkey_result",
                JList [Sample.dict [("pubkey"%string,
                                     JStr (lit Sample.key_line))]])])).
  - vm_compute. reflexivity.
  - vm_compute. reflexivity.
  - vm_compute. repeat constructor.
  - reflexivity.
  - vm_compute. reflexivity.
  - vm_compute. reflexivity.
  - vm_compute. reflexivity.
Defined.

(** X13.  [authenticate_with_audio_server] returns without a result
    ([None]) exactly when the connection is closed normally after every
    message was consumed without deciding the attempt. *)
Theorem returns_none_iff (lib : libraries) (conn : connection)
    (tok au : list N) (w : world) :
  fst (authenticate_with_audio_server lib conn tok au w) = ReturnedNone <->
  closing conn = ClosedOK /\
  exists l',
    run_prefix lib conn tok au (inbound conn) (Locals None None) w
    = Some (l', snd (authenticate_with_audio_server lib conn tok au w)).
Proof. apply loop_returns_none. Qed.

(** X14.  A message that cannot be read ends the attempt where it
    arrives, with nothing sent for it: for a text that is not a greeting
    and that [json.loads] refuses, the attempt fails with the exception
    [json.loads] raised on that text, whatever its class; a binary frame
    raises [TypeError]. *)
Theorem unreadable_message_aborts (lib : libraries) (conn : connection)
    (tok au : list N) (w0 : world) (pre : list message) (msg : message)
    (rest : list message) (l : locals) (w : world)
    (Hin : inbound conn = pre ++ msg :: rest)
    (Hpre : run_prefix lib conn tok au pre (Locals None None) w0 = Some (l, w))
    (Hbad : match msg with
            | Binary _ => True
            | Text m =>
                startswith m hello_prefix = false /\ json_loads lib m = None
            end) :
  authenticate_with_audio_server lib conn tok au w0
  = (Raised (match msg with
             | Binary _ => TypeError
             | Text m => json_loads_error lib m
             end), w).
Proof.
  unfold authenticate_with_audio_server. rewrite Hin.
  rewrite (loop_app lib conn tok au pre _ _ _ _ _ Hpre), loop_cons.
  destruct msg as [m|b]; [|done].
  destruct Hbad as [Hm Hj]. by rewrite reply_step, Hj.
Qed.

Lemma unreadable_message_aborts_witness :
  authenticate_with_audio_server Sample.libs
    (Sample.peer [Text Sample.greeting; Text (lit " LWSS Session-Token: x")]
       ClosedOK)
    (lit "jwt") (lit "user") Sample.w0
  = (Raised JSONDecodeError, World Sample.counter [EvSend getkey_command]).
Proof.
  apply (unreadable_message_aborts Sample.libs
           (Sample.peer [Text Sample.greeting;
                         Text (lit " LWSS Session-Token: x")] ClosedOK)
           (lit "jwt") (lit "user") Sample.w0 [Text Sample.greeting]
           (Text (lit " LWSS Session-Token: x")) []
           (Locals (Some (lit "abc123")) None)).
  - reflexivity.
  - vm_compute. reflexivity.
  - split; vm_compute; reflexivity.
Defined.

(** X15.  With a session token held, a truthy [getkey_result] that is not
    a list starting with a map ends the attempt before the encryptor is
    entered and with nothing sent: a list or a string raises
    [AttributeError] (its first element has no [get]), a map raises
    [KeyError] (it has no key 0), a number or [true] raises
    [TypeError]. *)
Theorem malformed_key_disclosure (lib : libraries) (conn : connection)
    (tok au : list N) (l : locals) (w : world) (m : list N)
    (d : gmap (list N) json) (tk : list N) (rest : list message)
    (Hm : startswith m hello_prefix = false)
    (Hj : json_loads lib m = Some (JDict d))
    (Hk : truthy (dict_get d getkey_result) = true)
    (Ht : session_token l = Some tk)
    (Hne : tk <> [])
    (Hshape : forall e others,
                dict_get d getkey_result <> JList (JDict e :: others)) :
  message_loop lib conn tok au (Text m :: rest) l w
  = (Raised (match dict_get d getkey_result with
             | JList _ | JStr _ => AttributeError
             | JDict _ => KeyError
             | _ => TypeError
             end), w).
Proof.
  rewrite loop_cons, reply_step, Hj, Hk by done.
  rewrite (on_getkey_result_run lib conn tok au l d w tk) by done.
  destruct (dict_get d getkey_result) as [| | | |[|c s]|[|x xs]|d'];
    try done.
  cbn [subscript0]. destruct x; try done. by destruct (Hshape d0 xs).
Qed.

Lemma malformed_key_disclosure_witness :
  message_loop Sample2.libs (Sample.peer [] ClosedOK) (lit "jwt") (lit "user")
    [Text (Sample.text Sample2.map_reply)]
    (Locals (Some (lit "abc123")) None) Sample.w0
  = (Raised (match dict_get
                     (list_to_map
                        [(lit "getkey_result",
                          Sample.dict [("pubkey"%string, JStr (lit "x"))])])
                     getkey_result with
             | JList _ | JStr _ => AttributeError
             | JDict _ => KeyError
             | _ => TypeError
             end), Sample.w0).
Proof.
  apply (malformed_key_disclosure Sample2.libs (Sample.peer [] ClosedOK)
           (lit "jwt") (lit "user") (Locals (Some (lit "abc123")) None)
           Sample.w0 (Sample.text Sample2.map_reply)
           (list_to_map
              [(lit "getkey_result",
                Sample.dict [("pubkey"%string, JStr (lit "x"))])])
           (lit "abc123") []).
  - vm_compute. reflexivity.
  - vm_compute. reflexivity.
  - vm_compute. reflexivity.
  - reflexivity.
  - intros H. discriminate H.
  - intros e others H. vm_compute in H. discriminate H.
Defined.

(** X16.  The whole exchange: a greeting that carries a session token, a
    key disclosure for which the encryptor returns a command, and a reply
    whose [authenticate_result] is the success text make the function
    return [True], having entered the encryptor once and sent exactly the
    key request and then that command (both sends succeeding). *)
Theorem handshake_succeeds (lib : libraries) (conn : connection)
    (tok au : list N) (w : world) (g m1 m2 : list N) (rest : list message)
    (d1 e d2 : gmap (list N) json) (others : list json) (tk cmd : list N)
    (w2 : world)
    (Hin : inbound conn = Text g :: Text m1 :: Text m2 :: rest)
    (Hg : startswith g hello_prefix = true)
    (Htk : token_after_hello (Locals None None) g = Some tk)
    (Hne : tk <> [])
    (Hs1 : send_fails conn (List.length (sent (trace w))) = false)
    (Hm1 : startswith m1 hello_prefix = false)
    (Hj1 : json_loads lib m1 = Some (JDict d1))
    (Hk1 : dict_get d1 getkey_result = JList (JDict e :: others))
    (Henc : get_auth_payload lib (dict_get e pubkey) tk tok au
              (World (entropy w) (trace w ++ [EvSend getkey_command]))
            = (Ok cmd, w2))
    (Hs2 : send_fails conn (S (List.length (sent (trace w)))) = false)
    (Hm2 : startswith m2 hello_prefix = false)
    (Hj2 : json_loads lib m2 = Some (JDict d2))
    (Hk2 : truthy (dict_get d2 getkey_result) = false)
    (Hr : dict_get d2 authenticate_result = JStr authentication_successful) :
  authenticate_with_audio_server lib conn tok au w
  = (ReturnedTrue, World (entropy w2) (trace w2 ++ [EvSend cmd])) /\
  sent (trace w2 ++ [EvSend cmd]) = sent (trace w) ++ [getkey_command; cmd] /\
  encryptor_calls (trace w2 ++ [EvSend cmd]) = S (encryptor_calls (trace w)).
Proof.
  destruct (get_auth_payload_trace _ _ _ _ _ _ _ _ Henc) as [Hs Hc].
  simpl in Hs, Hc. rewrite sent_app in Hs.
  rewrite encryptor_calls_app in Hc.
  change (sent [EvSend getkey_command]) with [getkey_command] in Hs.
  change (encryptor_calls [EvSend getkey_command]) with 0%nat in Hc.
  split; [|split].
  - unfold authenticate_with_audio_server. rewrite Hin.
    rewrite loop_cons, hello_step, on_hello_run, Hs1, Htk by done.
    assert (truthy (dict_get d1 getkey_result) = true) as Hk1'
      by (by rewrite Hk1).
    rewrite loop_cons, reply_step, Hj1, Hk1' by done.
    rewrite (on_getkey_result_run lib conn tok au _ d1 _ tk) by done.
    rewrite Hk1. cbn [subscript0 method_get]. rewrite Henc.
    rewrite Hs, length_app, Nat.add_comm. cbn [List.length Nat.add].
    rewrite Hs2.
    rewrite loop_cons, reply_step, Hj2, Hk2 by done.
    rewrite on_other_dict_run. cbv zeta. rewrite Hr.
    change (truthy (JStr authentication_successful)) with true.
    assert (eq_str (JStr authentication_successful) authentication_successful
            = true) as -> by (by apply bool_decide_eq_true_2).
    reflexivity.
  - rewrite sent_app, Hs, <- app_assoc. reflexivity.
  - rewrite encryptor_calls_app, Hc.
    change (encryptor_calls [EvSend cmd]) with 0%nat. lia.
Qed.

Lemma handshake_succeeds_witness :
  let conn :=
    Sample.peer [Text Sample.greeting; Text (Sample.text Sample.key_reply);
                 Text (Sample.text Sample.success_reply)] ClosedOK in
  fst (authenticate_with_audio_server Sample.libs conn (lit "jwt-token")
         (lit "user") Sample.w0) = ReturnedTrue.
Proof.
  pose (conn := Sample.peer [Text Sample.greeting;
                             Text (Sample.text Sample.key_reply);
                             Text (Sample.text Sample.success_reply)]
                  ClosedOK).
  pose (run := get_auth_payload Sample.libs (JStr (lit Sample.key_line))
                 (lit "abc123") (lit "jwt-token") (lit "user")
                 (World (entropy Sample.w0)
                    (trace Sample.w0 ++ [EvSend getkey_command]))).
  destruct (handshake_succeeds Sample.libs conn (lit "jwt-token") (lit "user")
              Sample.w0 Sample.greeting (Sample.text Sample.key_reply)
              (Sample.text Sample.success_reply) []
              (list_to_map
                 [(lit "getkey_result",
                   JList [JDict (list_to_map
                                   [(lit "pubkey",
                                     JStr (lit Sample.key_line))])])])
              (list_to_map [(lit "pubkey", JStr (lit Sample.key_line))])
              (list_to_map
                 [(lit "authenticate_result",
                   JStr (lit "authentication successful"))])
              [] (lit "abc123")
              (match fst run with Ok cmd => cmd | Err _ => [] end)
              (snd run))
    as (Hrun & _).
  - reflexivity.
  - vm_compute. reflexivity.
  - vm_compute. reflexivity.
  - intros H. discriminate H.
  - reflexivity.
  - vm_compute. reflexivity.
  - vm_compute. reflexivity.
  - vm_compute. reflexivity.
  - vm_compute. reflexivity.
  - reflexivity.
  - vm_compute. reflexivity.
  - vm_compute. reflexivity.
  - vm_compute. reflexivity.
  - vm_compute. reflexivity.
  - exact (f_equal fst Hrun).
Defined.
